(** * Dynamic Quote Generator: the quote store reconciliation engine

    A shallow embedding of [dom-manipulation/script.js]: the in-memory
    collection [quotes], its persistence in [localStorage], the import
    normaliser and the two merge loops (file import and server sync).

    Conventions of the embedding.
    - A JavaScript value is a primitive ([jsval]); a record of the
      collection is a plain object with the six fields the program reads
      ([Quote]), an absent field being [VUndefined].  Field values that are
      themselves arrays or objects are left out.
    - Numbers are integers ([Z]), printed in plain decimal, and the two
      infinities that [JSON.parse] returns for a literal out of range
      ([VInfinity]); strings are sequences of characters with [trim] and
      [toLowerCase] acting on the ASCII range.
    - What [localStorage] holds under the quotes key is read back as the
      collection, so the elements of a stored array are taken to be objects;
      the array of an imported file may hold anything ([item]).
    - A piece of text that the program hands to [JSON.parse] is represented
      by the outcome of parsing it ([text_of]); [JSON.stringify] of the
      collection is the text that parses back to it with every non-finite
      number turned into [null].
    - [Date.now()] and [Math.random()] are inputs of the operations.
    - In the store operations, calls into the page (status line, drop-down,
      rendering) are recorded in the order they are made ([event]); a call
      of [populateCategories] that raises ends the handler or sends it to
      its [catch].  The page functions themselves are embedded in [Page],
      over the part of the page they read back ([page]); the platform's sort
      by [localeCompare] and its random draw are parameters there. *)

From Stdlib Require Import Ascii String.
From stdpp Require Import gmap strings list pretty sorting.

Local Open Scope string_scope.
Local Open Scope Z_scope.

(** ** JavaScript primitives *)

Inductive jsval :=
  | VUndefined
  | VNull
  | VBool (b : bool)
  | VNum (n : Z)
  | VStr (s : string)
  | VInfinity (negative : bool).

Global Instance jsval_eq_dec : EqDecision jsval.
Proof. solve_decision. Defined.

Definition jsval_to_sum (v : jsval)
    : unit + (unit + (bool + (Z + (string + bool)))) :=
  match v with
  | VUndefined => inl ()
  | VNull => inr (inl ())
  | VBool b => inr (inr (inl b))
  | VNum n => inr (inr (inr (inl n)))
  | VStr s => inr (inr (inr (inr (inl s))))
  | VInfinity b => inr (inr (inr (inr (inr b))))
  end.

Definition jsval_of_sum (x : unit + (unit + (bool + (Z + (string + bool)))))
    : jsval :=
  match x with
  | inl _ => VUndefined
  | inr (inl _) => VNull
  | inr (inr (inl b)) => VBool b
  | inr (inr (inr (inl n))) => VNum n
  | inr (inr (inr (inr (inl s)))) => VStr s
  | inr (inr (inr (inr (inr b)))) => VInfinity b
  end.

Global Instance jsval_countable : Countable jsval.
Proof.
  apply (inj_countable' jsval_to_sum jsval_of_sum). by intros [].
Defined.

(** [!!v] in JavaScript: which values count as true in a condition. *)
Definition truthy (v : jsval) : bool :=
  match v with
  | VUndefined | VNull => false
  | VBool b => b
  | VNum n => negb (n =? 0)
  | VStr s => negb (String.eqb s "")
  | VInfinity _ => true
  end.

(** [a || b] *)
Definition js_or (a b : jsval) : jsval := if truthy a then a else b.

(** [typeof v === "string"] and [typeof v === "number"] *)
Definition is_string (v : jsval) : bool :=
  match v with VStr _ => true | _ => false end.
Definition is_number (v : jsval) : bool :=
  match v with VNum _ | VInfinity _ => true | _ => false end.

(** [String(v)] and the conversion inside a template literal. *)
Definition to_String (v : jsval) : string :=
  match v with
  | VUndefined => "undefined"
  | VNull => "null"
  | VBool true => "true"
  | VBool false => "false"
  | VNum n => pretty n
  | VStr s => s
  | VInfinity false => "Infinity"
  | VInfinity true => "-Infinity"
  end.

(** ** Strings: [trim] and [toLowerCase] *)

Definition is_space (a : ascii) : bool :=
  let n := nat_of_ascii a in
  ((9 <=? n) && (n <=? 13) || (n =? 32))%nat.

Fixpoint trimStart_list (l : list ascii) : list ascii :=
  match l with
  | a :: l' => if is_space a then trimStart_list l' else l
  | [] => []
  end.

Definition trimEnd_list (l : list ascii) : list ascii :=
  rev (trimStart_list (rev l)).

Definition trim (s : string) : string :=
  string_of_list_ascii (trimEnd_list (trimStart_list (list_ascii_of_string s))).

Definition lower_ascii (a : ascii) : ascii :=
  let n := nat_of_ascii a in
  if ((65 <=? n) && (n <=? 90))%nat then ascii_of_nat (n + 32) else a.

Definition toLowerCase (s : string) : string :=
  string_of_list_ascii (map lower_ascii (list_ascii_of_string s)).

(** ** The quote record *)

Record Quote := mkQuote {
  id : jsval;
  text : jsval;
  category : jsval;
  source : jsval;
  version : jsval;
  lastUpdated : jsval
}.

Global Instance Quote_eq_dec : EqDecision Quote.
Proof. solve_decision. Defined.

Definition ids (l : list Quote) : list jsval := id <$> l.

(** The key of content-level comparison. *)
Definition content (q : Quote) : jsval * jsval := (text q, category q).

(** The view the round trip is compared by. *)
Definition triple (q : Quote) : jsval * jsval * jsval := (id q, text q, category q).

(** ** Parsed text

    An element of a parsed array is a plain object or something else
    (a number, a string, [null], ...). *)

Inductive item :=
  | INonObject (v : jsval)
  | IObject (o : Quote).

(** [x.f] on an array element; a non-object that is not [null] has none of
    the six fields. *)
Definition field (f : Quote → jsval) (x : item) : jsval :=
  match x with
  | IObject o => f o
  | INonObject _ => VUndefined
  end.

Definition item_truthy (x : item) : bool :=
  match x with
  | IObject _ => true
  | INonObject v => truthy v
  end.

(** What [JSON.parse] returns, with [A] the type of array elements. *)
Inductive json (A : Type) :=
  | JScalar (v : jsval)
  | JObject (o : Quote)
  | JArray (elems : list A).
Arguments JScalar {A} v.
Arguments JObject {A} o.
Arguments JArray {A} elems.

(** A string handed to [JSON.parse]: either it is rejected with a
    [SyntaxError], or it is the text of a JSON value. *)
Inductive text_of (A : Type) :=
  | Unparseable (message : string)
  | Parses (v : json A).
Arguments Unparseable {A} message.
Arguments Parses {A} v.

(** What [JSON.stringify] makes of a field: a non-finite number is written
    as [null]; an undefined field is left out and is undefined again when the
    text is parsed. *)
Definition json_val (v : jsval) : jsval :=
  match v with
  | VInfinity _ => VNull
  | _ => v
  end.

Definition json_record (q : Quote) : Quote :=
  mkQuote (json_val (id q)) (json_val (text q)) (json_val (category q))
          (json_val (source q)) (json_val (version q)) (json_val (lastUpdated q)).

(** [JSON.stringify(quotes)]: the text that parses to the array as
    [JSON.stringify] writes it. *)
Definition JSON_stringify (qs : list Quote) : text_of Quote :=
  Parses (JArray (json_record <$> qs)).

(** The same text read as an untrusted file. *)
Definition as_file (qs : list Quote) : text_of item :=
  Parses (JArray (IObject <$> (json_record <$> qs))).

(** ** Storage keys and seed data *)

Module STORAGE.
Definition QUOTES : string := "dqg.quotes".
Definition LAST_CATEGORY : string := "dqg.lastCategory".
Definition LAST_QUOTE_ID : string := "dqg.lastQuoteId".
Definition LAST_SYNC : string := "dqg.lastSyncTs".
End STORAGE.

(** [now i] is the i-th reading of the clock while the script is loaded. *)
Definition SEED_QUOTES (now : nat → Z) : list Quote :=
  [ mkQuote (VStr "seed-1") (VStr "The only way to do great work is to love what you do.")
      (VStr "inspiration") (VStr "seed") (VNum 1) (VNum (now 0%nat));
    mkQuote (VStr "seed-2") (VStr "Simplicity is the soul of efficiency.")
      (VStr "productivity") (VStr "seed") (VNum 1) (VNum (now 1%nat));
    mkQuote (VStr "seed-3") (VStr "What we think, we become.")
      (VStr "mindset") (VStr "seed") (VNum 1) (VNum (now 2%nat));
    mkQuote (VStr "seed-4") (VStr "Talk is cheap. Show me the code.")
      (VStr "programming") (VStr "seed") (VNum 1) (VNum (now 3%nat)) ].

(** ** Program state and effects *)

Inductive event :=
  | LocalStorage_setItem (key : string) (value : text_of Quote)
  | PopulateCategories
  | ShowRandomQuote
  | RenderMatchesList
  | SetStatus (msg : string) (type : string)
  | ClearAddQuoteForm
  | Download (filename : string) (data : text_of item).

Global Instance item_eq_dec : EqDecision item.
Proof. solve_decision. Defined.
Global Instance json_eq_dec `{EqDecision A} : EqDecision (json A).
Proof. solve_decision. Defined.
Global Instance text_of_eq_dec `{EqDecision A} : EqDecision (text_of A).
Proof. solve_decision. Defined.
Global Instance event_eq_dec : EqDecision event.
Proof. solve_decision. Defined.

Record state := mkState {
  quotes : list Quote;                         (* let quotes = [] *)
  localStorage : gmap string (text_of Quote);  (* keys of STORAGE held durably *)
  trace : list event                           (* effects so far, oldest first *)
}.

Definition emit (e : event) (st : state) : state :=
  mkState (quotes st) (localStorage st) (trace st ++ [e]).

Definition setItem (key : string) (value : text_of Quote) (st : state) : state :=
  mkState (quotes st) (<[key := value]> (localStorage st))
          (trace st ++ [LocalStorage_setItem key value]).

Definition set_quotes (qs : list Quote) (st : state) : state :=
  mkState qs (localStorage st) (trace st).

(** [setStatus(msg, type = "info")] *)
Definition setStatus (msg : string) (type : string) : state → state :=
  emit (SetStatus msg type).

Definition readLocalQuotes (st : state) : option (list Quote) :=
  match localStorage st !! STORAGE.QUOTES with
  | None => None                              (* if (!raw) return null *)
  | Some (Unparseable _) => None              (* empty, or JSON.parse raises: caught *)
  | Some (Parses (JArray arr)) => Some arr
  | Some (Parses _) => None                   (* Array.isArray(arr) is false *)
  end.

Definition saveQuotes (st : state) : state :=
  setItem STORAGE.QUOTES (JSON_stringify (quotes st)) st.

Definition loadInitialData (seed : list Quote) (st : state) : state :=
  match readLocalQuotes st with
  | Some (q :: l) => set_quotes (q :: l) st     (* local && local.length *)
  | _ => saveQuotes (set_quotes seed st)
  end.

(** ** When the category refresh raises

    [populateCategories()] calls [uniqCategories()], where
    [(q.category || "").trim()] raises a [TypeError] on a category that is
    truthy and not a string. *)

Definition label_raises (q : Quote) : bool :=
  truthy (category q) && negb (is_string (category q)).

Definition populateCategories_raises (qs : list Quote) : bool :=
  existsb label_raises qs.

(** The message of that [TypeError], as V8 words it. *)
Definition trim_is_not_a_function : string :=
  "(q.category || " ++ String "034"%char (String "034"%char ").trim is not a function").

(** ** Import: normalisation

    One reading of the environment per surviving element: the clock when the
    id is synthesised, the five base-36 characters cut from [Math.random()],
    and the clock when [lastUpdated] is filled in. *)

Record tick := mkTick {
  now_id : Z;
  random36 : string;
  now_updated : Z
}.

(** [x && typeof x.text === "string" && typeof x.category === "string"] *)
Definition well_shaped (x : item) : bool :=
  item_truthy x && is_string (field text x) && is_string (field category x).

(** [x.text.trim()], for a value already known to be a string. *)
Definition trim_val (v : jsval) : jsval :=
  match v with
  | VStr s => VStr (trim s)
  | _ => v
  end.

(** [x.category.trim().toLowerCase()] *)
Definition trim_lower_val (v : jsval) : jsval :=
  match v with
  | VStr s => VStr (toLowerCase (trim s))
  | _ => v
  end.

Definition normalize_one (t : tick) (x : item) : Quote :=
  {| id := js_or (field id x)
             (VStr ("import-" ++ pretty (now_id t) ++ "-" ++ random36 t));
     text := trim_val (field text x);
     category := trim_lower_val (field category x);
     source := js_or (field source x) (VStr "import");
     version := if is_number (field version x) then field version x else VNum 1;
     lastUpdated := if is_number (field lastUpdated x) then field lastUpdated x
                    else VNum (now_updated t) |}.

(** [raw.filter(...).map(...)]; [env i] is the environment at the i-th
    element that passes the filter. *)
Definition normalizeImported (env : nat → tick) (raw : list item) : list Quote :=
  imap (λ i x, normalize_one (env i) x) (filter (λ x, well_shaped x = true) raw).

(** The same normaliser written as the loop of the variant that names it
    [normalizeImported]: [out] collects the records, an element that fails
    the guard is passed over ([continue]). *)
Fixpoint normalizeImported_loop (env : nat → tick) (arr : list item)
    (out : list Quote) : list Quote :=
  match arr with
  | [] => out
  | x :: rest =>
      if negb (item_truthy x) || negb (is_string (field text x))
         || negb (is_string (field category x))
      then normalizeImported_loop env rest out
      else normalizeImported_loop env rest (out ++ [normalize_one (env (length out)) x])
  end.

(** ** Import: merge loop *)

Record import_acc := mkImportAcc {
  i_quotes : list Quote;
  i_seenId : gset jsval;
  i_added : nat;
  i_skipped : nat
}.

(** [quotes.some(x => x.text === q.text && x.category === q.category)] *)
Definition same_content_in (qs : list Quote) (q : Quote) : bool :=
  existsb (λ x, bool_decide (text x = text q) && bool_decide (category x = category q)) qs.

Definition import_step (acc : import_acc) (q : Quote) : import_acc :=
  if bool_decide (id q ∈ i_seenId acc) || same_content_in (i_quotes acc) q
  then mkImportAcc (i_quotes acc) (i_seenId acc) (i_added acc) (S (i_skipped acc))
  else mkImportAcc (i_quotes acc ++ [q]) ({[ id q ]} ∪ i_seenId acc)
                   (S (i_added acc)) (i_skipped acc).

Definition import_init (existing : list Quote) : import_acc :=
  mkImportAcc existing (list_to_set (ids existing)) 0 0.

Definition import_loop (existing normalized : list Quote) : import_acc :=
  foldl import_step (import_init existing) normalized.

(** The merge as the specification names it: merged collection, added
    count, skipped count. *)
Definition importMerge (existing normalized : list Quote) : list Quote * nat * nat :=
  let acc := import_loop existing normalized in
  (i_quotes acc, i_added acc, i_skipped acc).

(** [fileReader.onload], with [file] the text of the chosen file, if any. *)
Definition importFromJsonFile (file : option (text_of item)) (env : nat → tick)
    (st : state) : state :=
  match file with
  | None => st
  | Some (Unparseable message) =>
      setStatus ("Import failed: " ++ message) "warn" st
  | Some (Parses (JArray raw)) =>
      let '(merged, added, skipped) := importMerge (quotes st) (normalizeImported env raw) in
      let st := set_quotes merged st in
      let st := saveQuotes st in
      let st := emit PopulateCategories st in
      if populateCategories_raises merged then   (* caught *)
        setStatus ("Import failed: " ++ trim_is_not_a_function) "warn" st
      else
        let st := emit ShowRandomQuote st in
        setStatus ("Quotes imported successfully! Added " ++ pretty added
                   ++ ", skipped " ++ pretty skipped ++ ".") "info" st
  | Some (Parses _) =>
      setStatus "Import failed: File must contain an array of quotes." "warn" st
  end.

(** ** Export *)

Definition exportToJson (st : state) : state :=
  let st := emit (Download "quotes-export.json" (as_file (quotes st))) st in
  setStatus "Exported quotes to JSON file." "info" st.

(** ** Adding a quote from the form *)

(** The id [addQuote] gives to the record it creates, from the clock and the
    random suffix. *)
Definition local_id (t : tick) : jsval :=
  VStr ("local-" ++ pretty (now_id t) ++ "-" ++ random36 t).

(** [addQuote()].

    [textValue] and [catValue] are the contents of the two inputs;
    [selected] is the value of the category filter once the drop-down has
    been rebuilt. *)
Definition addQuote (textValue catValue : string) (t : tick) (selected : string)
    (st : state) : state :=
  let text := trim textValue in
  let category := toLowerCase (trim catValue) in
  if String.eqb text "" || String.eqb category "" then
    setStatus "Please enter BOTH quote text and category." "warn" st
  else
    let q := {| id := local_id t;
                text := VStr text;
                category := VStr category;
                source := VStr "local";
                version := VNum 1;
                lastUpdated := VNum (now_updated t) |} in
    let st := set_quotes (quotes st ++ [q]) st in
    let st := saveQuotes st in
    let st := emit PopulateCategories st in
    if populateCategories_raises (quotes st) then st   (* not caught: the handler ends *)
    else
      let st := if String.eqb selected "all" || String.eqb selected category
                then emit ShowRandomQuote st else emit RenderMatchesList st in
      let st := emit ClearAddQuoteForm st in
      setStatus "Quote added ✔" "info" st.

(** ** Server sync *)

Record post := mkPost { p_id : jsval; p_title : jsval }.

Definition quote_of_post (now : Z) (p : post) : Quote :=
  {| id := VStr ("server-" ++ to_String (p_id p));
     text := js_or (VStr (trim (to_String (js_or (p_title p) (VStr "")))))
                   (VStr "(untitled)");
     category := VStr "server";
     source := VStr "server";
     version := VNum 1;
     lastUpdated := VNum now |}.

(** An element of the array the feed returns: [null], or something with an
    [id] and a [title] (a value that is not an object has neither: both are
    undefined). *)
Inductive feed_item :=
  | FeedNull
  | FeedPost (p : post).

(** [p => ({ id: `server-${p.id}`, ... })]; reading [p.id] raises on [null]. *)
Definition quote_of_item (now : Z) (x : feed_item) : option Quote :=
  match x with
  | FeedNull => None
  | FeedPost p => Some (quote_of_post now p)
  end.

(** What the request to the feed comes back with. *)
Inductive response :=
  | NetworkError (message : string)          (* fetch rejects *)
  | HttpResponse (ok : bool) (status : Z) (body : text_of feed_item).

(** [fetchServerQuotes()]: the mapped posts, or the message of the error
    thrown. *)
Definition fetchServerQuotes (r : response) (now : Z) : string + list Quote :=
  match r with
  | NetworkError message => inl message
  | HttpResponse false status _ => inl ("Server returned " ++ pretty status)
  | HttpResponse true _ (Unparseable message) => inl message
  | HttpResponse true _ (Parses (JArray posts)) =>
      match mapM (quote_of_item now) posts with
      | Some serverQuotes => inr serverQuotes
      | None => inl "Cannot read properties of null (reading 'id')"
      end
  | HttpResponse true _ (Parses _) => inl "posts.map is not a function"
  end.

Record sync_acc := mkSyncAcc {
  s_quotes : list Quote;
  s_localById : gmap jsval Quote;
  s_added : nat;
  s_replaced : nat
}.

(** [new Map(quotes.map(q => [q.id, q]))]: a later entry replaces an
    earlier one with the same key. *)
Definition Map_by_id (qs : list Quote) : gmap jsval Quote :=
  foldl (λ m q, <[id q := q]> m) ∅ qs.

(** [quotes.findIndex(q => q.id === k)]; [None] stands for -1. *)
Definition findIndex_id (k : jsval) (qs : list Quote) : option nat :=
  fst <$> list_find (λ q, id q = k) qs.

(** [local.text !== s.text || local.category !== s.category] *)
Definition differs (local s : Quote) : bool :=
  bool_decide (text local ≠ text s) || bool_decide (category local ≠ category s).

Definition sync_step (acc : sync_acc) (s : Quote) : sync_acc :=
  match s_localById acc !! id s with
  | None =>
      mkSyncAcc (s_quotes acc ++ [s]) (<[id s := s]> (s_localById acc))
                (S (s_added acc)) (s_replaced acc)
  | Some local =>
      if differs local s then
        let qs := match findIndex_id (id s) (s_quotes acc) with
                  | Some idx => <[idx := s]> (s_quotes acc)
                  | None => s_quotes acc
                  end in
        mkSyncAcc qs (<[id s := s]> (s_localById acc)) (s_added acc) (S (s_replaced acc))
      else acc
  end.

Definition sync_init (existing : list Quote) : sync_acc :=
  mkSyncAcc existing (Map_by_id existing) 0 0.

Definition sync_loop (existing serverQuotes : list Quote) : sync_acc :=
  foldl sync_step (sync_init existing) serverQuotes.

(** [mergeServerQuotes]: the collection after the loop and the two counts
    it returns. *)
Definition mergeServerQuotes (existing serverQuotes : list Quote) : list Quote * nat * nat :=
  let acc := sync_loop existing serverQuotes in
  (s_quotes acc, s_added acc, s_replaced acc).

(** [syncWithServer()]: [now_fetch] is the clock inside [fetchServerQuotes],
    [selected] the value of the category filter after the drop-down is
    rebuilt, [now_sync] the clock when the sync time is recorded. *)
Definition syncWithServer (r : response) (now_fetch : Z) (selected : string)
    (now_sync : Z) (st : state) : state :=
  match fetchServerQuotes r now_fetch with
  | inl message => setStatus ("Sync error: " ++ message) "warn" st
  | inr serverQuotes =>
      let '(merged, added, replaced) := mergeServerQuotes (quotes st) serverQuotes in
      let st := set_quotes merged st in
      if negb (added =? 0)%nat || negb (replaced =? 0)%nat then
        let st := saveQuotes st in
        let st := emit PopulateCategories st in
        if populateCategories_raises merged then   (* caught *)
          setStatus ("Sync error: " ++ trim_is_not_a_function) "warn" st
        else
          let st := if String.eqb selected "all" || String.eqb selected "server"
                    then emit ShowRandomQuote st else emit RenderMatchesList st in
          let st := setStatus ("Synced with server. Added " ++ pretty added
                               ++ ", resolved " ++ pretty replaced ++ " conflicts.")
                              "info" st in
          setItem STORAGE.LAST_SYNC (Parses (JScalar (VNum now_sync))) st
      else
        let st := setStatus "Synced with server. No changes." "info" st in
        setItem STORAGE.LAST_SYNC (Parses (JScalar (VNum now_sync))) st
  end.

(** ** Sequences of operations on the store *)

Inductive operation :=
  | OpAdd (textValue catValue : string) (t : tick) (selected : string)
  | OpImport (file : option (text_of item)) (env : nat → tick)
  | OpSync (r : response) (now_fetch : Z) (selected : string) (now_sync : Z).

Definition apply_op (st : state) (o : operation) : state :=
  match o with
  | OpAdd tv cv t sel => addQuote tv cv t sel st
  | OpImport file env => importFromJsonFile file env st
  | OpSync r nf sel ns => syncWithServer r nf sel ns st
  end.

Definition run (ops : list operation) (st : state) : state := foldl apply_op st ops.

(** Every add along the run draws an id that the collection does not hold
    at that moment. *)
Fixpoint adds_fresh (ops : list operation) (st : state) : Prop :=
  match ops with
  | [] => True
  | o :: ops' =>
      match o with
      | OpAdd _ _ t _ => local_id t ∉ ids (quotes st)
      | _ => True
      end ∧ adds_fresh ops' (apply_op st o)
  end.

(** The effects an operation adds to the trace. *)
Definition effects (f : state → state) (st : state) : list event :=
  drop (length (trace st)) (trace (f st)).



(** ** Record invariants of the data model *)

(** [text] is a trimmed string and [category] a trimmed, lower-cased one. *)
Definition normal_content (q : Quote) : bool :=
  is_string (text q) && is_string (category q)
  && bool_decide (trim_val (text q) = text q)
  && bool_decide (trim_lower_val (category q) = category q).

Definition nonblank (v : jsval) : bool :=
  match v with
  | VStr s => negb (String.eqb s "")
  | _ => false
  end.

(** The Quote invariants on [text] and [category]: non-empty strings. *)
Definition quote_invariant (q : Quote) : bool :=
  nonblank (text q) && nonblank (category q).

(** The file offered for download by the effects [evs], if any. *)
Definition downloaded (evs : list event) : option (text_of item) :=
  head (omap (λ e, match e with Download _ data => Some data | _ => None end) evs).

(** The file that [exportToJson] produces in state [st]. *)
Definition exported_file (st : state) : option (text_of item) :=
  downloaded (effects exportToJson st).

(** A record as the operations of the program create it: a truthy id, and
    text and category in normal form. *)
Definition well_formed (q : Quote) : bool := truthy (id q) && normal_content q.

(** ** Invariants of the sync loop *)

(** The map [localById] indexes the collection: a key leads to a record
    exactly when that record is in the collection under that id. *)
Definition by_id_ok (qs : list Quote) (m : gmap jsval Quote) : Prop :=
  NoDup (ids qs) ∧ ∀ k q, m !! k = Some q ↔ (q ∈ qs ∧ id q = k).

(** The collection already holds a record with the id and the content of
    [s]. *)
Definition settled (qs : list Quote) (s : Quote) : Prop :=
  ∃ q, q ∈ qs ∧ id q = id s ∧ text q = text s ∧ category q = category s.

(** Incoming records that share an id also share text and category. *)
Definition consistent (l : list Quote) : bool :=
  forallb (λ s1, forallb (λ s2,
    implb (bool_decide (id s1 = id s2))
          (bool_decide (text s1 = text s2) && bool_decide (category s1 = category s2))) l) l.

(** ** The page: category filter, display and remembered choices

    The part of the page the program reads back: the category drop-down,
    what is shown, and the two remembered choices, which are plain strings
    ([STORAGE.LAST_CATEGORY] in [localStorage], [STORAGE.LAST_QUOTE_ID] in
    [sessionStorage]).  The functions take the collection [qs] they read. *)

Record page := mkPage {
  select_value : string;          (* els.categoryFilter().value *)
  select_options : list string;   (* the values of its options *)
  quoteText : jsval;              (* els.quoteText().textContent, as assigned *)
  quoteCategory : jsval;          (* els.quoteCategory().textContent, as assigned *)
  matchesList : list string;      (* the text of each li of the matches list *)
  statusText : string;            (* els.statusBox().textContent *)
  statusClass : string;           (* els.statusBox().className *)
  lastCategory : option string;   (* localStorage: STORAGE.LAST_CATEGORY *)
  lastQuoteId : option string     (* sessionStorage: STORAGE.LAST_QUOTE_ID *)
}.

Module Page.

Definition set_select (value : string) (options : list string) (p : page) : page :=
  mkPage value options (quoteText p) (quoteCategory p) (matchesList p)
         (statusText p) (statusClass p) (lastCategory p) (lastQuoteId p).

Definition set_display (t c : jsval) (p : page) : page :=
  mkPage (select_value p) (select_options p) t c (matchesList p)
         (statusText p) (statusClass p) (lastCategory p) (lastQuoteId p).

Definition set_matches (l : list string) (p : page) : page :=
  mkPage (select_value p) (select_options p) (quoteText p) (quoteCategory p) l
         (statusText p) (statusClass p) (lastCategory p) (lastQuoteId p).

Definition set_lastCategory (c : string) (p : page) : page :=
  mkPage (select_value p) (select_options p) (quoteText p) (quoteCategory p)
         (matchesList p) (statusText p) (statusClass p) (Some c) (lastQuoteId p).

Definition set_lastQuoteId (k : string) (p : page) : page :=
  mkPage (select_value p) (select_options p) (quoteText p) (quoteCategory p)
         (matchesList p) (statusText p) (statusClass p) (lastCategory p) (Some k).

(** [setStatus(msg, type = "info")] on the status box. *)
Definition setStatus (msg type : string) (p : page) : page :=
  mkPage (select_value p) (select_options p) (quoteText p) (quoteCategory p)
         (matchesList p) msg
         (if String.eqb type "warn" then "status warn" else "status")
         (lastCategory p) (lastQuoteId p).

(** [(q.category || "").trim()]; [None] when the value has no [trim]
    (a truthy value that is not a string) and the call raises. *)
Definition category_label (q : Quote) : option string :=
  match js_or (category q) (VStr "") with
  | VStr s => Some (trim s)
  | _ => None
  end.

(** [new Set(l)], read back in insertion order. *)
Definition Set_of (l : list string) : list string :=
  foldl (λ s x, if bool_decide (x ∈ s) then s else (s ++ [x])%list) [] l.

(** [selected === "all" ? quotes : quotes.filter(q => q.category === selected)] *)
Definition pool (selected : string) (qs : list Quote) : list Quote :=
  if String.eqb selected "all" then qs
  else filter (λ q, category q = VStr selected) qs.

(** The line of the matches list for one record: its text between double
    quotes, a dash, its category. *)
Definition match_line (q : Quote) : string :=
  String "034"%char (to_String (text q)) ++ String "034"%char " — "
  ++ to_String (category q).

Definition renderMatchesList (qs : list Quote) (p : page) : page :=
  set_matches (match_line <$> take 12 (pool (select_value p) qs)) p.

Section with_platform.

(** [sort l] is [l.sort((a, b) => a.localeCompare(b))]; [draw n] is
    [Math.floor(Math.random() * n)]; [session_ok] tells whether
    [sessionStorage.setItem] goes through. *)
Variable sort : list string → list string.
Variable draw : nat → nat.
Variable session_ok : bool.

Definition uniqCategories (qs : list Quote) : option (list string) :=
  labels ← mapM category_label qs;
  Some (sort (Set_of (filter (λ s, s ≠ "") labels))).

(** [populateCategories()]; [None] when [uniqCategories] raises. *)
Definition populateCategories (qs : list Quote) (p : page) : option page :=
  let previous :=
    match lastCategory p with
    | Some (String a s) => String a s
    | _ => if String.eqb (select_value p) "" then "all" else select_value p
    end in
  cats ← uniqCategories qs;
  let options := "all" :: cats in
  let value := if bool_decide (previous ∈ options) then previous else "all" in
  Some (set_lastCategory value (set_select value options p)).

(** [showRandomQuote()]; [None] when the drawn index is outside the pool
    and reading the record raises. *)
Definition showRandomQuote (qs : list Quote) (p : page) : option page :=
  let selected := select_value p in
  let candidates := pool selected qs in
  match candidates with
  | [] =>
      let p := set_display (VStr "No quotes yet for this view. Add one below!")
                 (VStr (if String.eqb selected "all" then "—" else selected)) p in
      let p := setStatus "No quotes available in this view." "warn" p in
      Some (renderMatchesList qs p)
  | _ =>
      q ← candidates !! draw (length candidates);
      let p := set_display (text q) (category q) p in
      let p := if session_ok then set_lastQuoteId (to_String (id q)) p else p in
      let p := setStatus "" "info" p in
      Some (renderMatchesList qs p)
  end.

(** [filterQuotes()], once the user has changed the drop-down. *)
Definition filterQuotes (qs : list Quote) (p : page) : option page :=
  showRandomQuote qs (set_lastCategory (select_value p) p).

Definition tryRestoreLastViewedOrRandom (qs : list Quote) (p : page) : option page :=
  let selected := select_value p in
  match lastQuoteId p with
  | Some (String a s) =>
      match list_find (λ x, id x = VStr (String a s)) qs with
      | Some (_, q) =>
          if String.eqb selected "all" || bool_decide (category q = VStr selected)
          then Some (renderMatchesList qs (set_display (text q) (category q) p))
          else showRandomQuote qs p
      | None => showRandomQuote qs p
      end
  | _ => showRandomQuote qs p
  end.

(** The [DOMContentLoaded] handler up to the first render: load the
    collection, rebuild the drop-down, restore or pick a quote.  (The form
    it builds first and the sync it starts last are not part of this.) *)
Definition onDOMContentLoaded (seed : list Quote) (st : state) (p : page)
    : state * option page :=
  let st := loadInitialData seed st in
  (st, p ← populateCategories (quotes st) p;
       tryRestoreLastViewedOrRandom (quotes st) p).

End with_platform.

End Page.

(** The categories of all records are trimmed strings. *)
Definition trimmed_categories (qs : list Quote) : bool :=
  forallb (λ q, is_string (category q) && bool_decide (trim_val (category q) = category q)) qs.

(** ** The variant of the program that names [normalizeImported]

    Its loader keeps only the well-shaped elements of the stored array, and
    its import loop keeps a map by id where the one above keeps a set. *)

Module Part001.

Definition as_object (x : item) : option Quote :=
  match x with
  | IObject o => Some o
  | INonObject _ => None
  end.

(** [readLocalQuotes()], from the text stored under the quotes key. *)
Definition readLocalQuotes (stored : option (text_of item)) : option (list Quote) :=
  match stored with
  | None => None
  | Some (Unparseable _) => None
  | Some (Parses (JArray arr)) =>
      Some (omap as_object (filter (λ x, well_shaped x = true) arr))
  | Some (Parses _) => None
  end.

(** [loadInitialData()]: the collection, and what is written back under the
    quotes key, if anything. *)
Definition loadInitialData (seed : list Quote) (stored : option (text_of item))
    : list Quote * option (text_of Quote) :=
  match readLocalQuotes stored with
  | Some (q :: l) => (q :: l, None)
  | _ => (seed, Some (JSON_stringify seed))
  end.

Record import_acc := mkImportAcc {
  i_quotes : list Quote;
  i_byId : gmap jsval Quote;
  i_added : nat;
  i_skipped : nat
}.

Definition import_step (acc : import_acc) (q : Quote) : import_acc :=
  if bool_decide (is_Some (i_byId acc !! id q))
  then mkImportAcc (i_quotes acc) (i_byId acc) (i_added acc) (S (i_skipped acc))
  else if same_content_in (i_quotes acc) q
  then mkImportAcc (i_quotes acc) (i_byId acc) (i_added acc) (S (i_skipped acc))
  else mkImportAcc (i_quotes acc ++ [q]) (<[id q := q]> (i_byId acc))
                   (S (i_added acc)) (i_skipped acc).

Definition importMerge (existing imported : list Quote) : list Quote * nat * nat :=
  let acc := foldl import_step (mkImportAcc existing (Map_by_id existing) 0 0) imported in
  (i_quotes acc, i_added acc, i_skipped acc).

End Part001.

(** ** Further notions used in the properties *)

(** The durable store holds, under the quotes key, the text that
    [saveQuotes] writes for the collection in memory. *)
Definition saved (st : state) : Prop :=
  localStorage st !! STORAGE.QUOTES = Some (JSON_stringify (quotes st)).

(** The durable store holds, under the quotes key, the text the collection
    was read from or the text [saveQuotes] writes for it. *)
Definition mirrors (st : state) : Prop :=
  localStorage st !! STORAGE.QUOTES = Some (Parses (JArray (quotes st))) ∨ saved st.

(** No field of the record is a non-finite number. *)
Definition finite_record (q : Quote) : Prop := json_record q = q.


(** The chosen file is the text of an array. *)
Definition is_array_file (file : option (text_of item)) : bool :=
  match file with
  | Some (Parses (JArray _)) => true
  | _ => false
  end.

(** A string has the form ["server-" ++ x]. *)
Definition server_id (k : jsval) : Prop := ∃ x, k = VStr ("server-" ++ x).

(** ** Sample data *)

Definition blank_state : state := mkState [] ∅ [].

Definition tick_a : tick := mkTick 1700000000000 "k3x9q" 1700000000000.
Definition tick_b : tick := mkTick 1700000000321 "p0m2z" 1700000000321.
Definition env_a : nat → tick := λ _, tick_a.

(** The example of the specification: a stored record and the incoming
    record with the same id and another text. *)
Definition local_A : Quote :=
  mkQuote (VStr "server-1") (VStr "A") (VStr "server") (VStr "server") (VNum 1) (VNum 0).
Definition server_A : Quote :=
  mkQuote (VStr "server-1") (VStr "A") (VStr "server") (VStr "server") (VNum 1) (VNum 7).
Definition server_B : Quote :=
  mkQuote (VStr "server-1") (VStr "B") (VStr "server") (VStr "server") (VNum 1) (VNum 7).
Definition server_2 : Quote :=
  mkQuote (VStr "server-2") (VStr "qui est esse") (VStr "server") (VStr "server")
          (VNum 1) (VNum 7).


(** A feed of two posts, and a file of two records and a [null], the second
    record repeating the content of a seed under no id. *)
Definition sample_response : response :=
  HttpResponse true 200
    (Parses (JArray [FeedPost (mkPost (VNum 1) (VStr "sunt aut facere "));
                     FeedPost (mkPost (VNum 2) (VStr "qui est esse"))])).
Definition sample_file : text_of item :=
  Parses (JArray
    [IObject (mkQuote (VStr "q-1") (VStr " Stay hungry. ") (VStr "Wisdom")
                      VUndefined VUndefined VUndefined);
     IObject (mkQuote VUndefined (VStr "What we think, we become.") (VStr "Mindset")
                      VUndefined VUndefined VUndefined);
     INonObject VNull]).

Definition seeded_state : state :=
  loadInitialData (SEED_QUOTES (λ _, 1700000000000%Z)) blank_state.

(** A sort and a draw to run the page with: merge sort by the order of
    character codes, and the middle of the range. *)
Definition string_le (a b : string) : Prop := String.leb a b = true.

Global Instance string_le_dec a b : Decision (string_le a b).
Proof. unfold string_le. apply _. Defined.

Definition sample_sort : list string → list string := merge_sort string_le.
Definition sample_draw (n : nat) : nat := (n / 2)%nat.

(** A page before anything is shown, and one on which the visitor chose
    "mindset" in an earlier session. *)
Definition fresh_page : page := mkPage "" [] VUndefined VUndefined [] "" "" None None.
Definition returning_page : page :=
  mkPage "" [] VUndefined VUndefined [] "" "" (Some "mindset") None.

(** A record as an imported file may bring it: a number for id. *)
Definition numbered : Quote :=
  mkQuote (VNum 7) (VStr "Less is more.") (VStr "design") (VStr "import") (VNum 1) (VNum 0).

(** A record as a file may bring it with the literal [1e999] for id, which
    [JSON.parse] reads as [Infinity]. *)
Definition overflowing : Quote :=
  mkQuote (VInfinity false) (VStr "Less is more.") (VStr "design") VUndefined
          VUndefined VUndefined.

(** A state whose store holds a record with the category [true], as text
    written by another program may bring it. *)
Definition flagged : Quote :=
  mkQuote (VStr "x-1") (VStr "Hi") (VBool true) (VStr "seed") (VNum 1) (VNum 0).
Definition flagged_state : state :=
  loadInitialData (SEED_QUOTES (λ _, 0%Z))
    (mkState [] {[ STORAGE.QUOTES := Parses (JArray [flagged]) ]} []).

(** * Properties *)

Local Open Scope list_scope.
Local Open Scope nat_scope.

(** ** Start-up *)

(** C10. Whatever the durable store holds under the quotes key, the
    collection is non-empty after [loadInitialData]: when the key is
    missing, its value does not parse, parses to something that is not an
    array, or parses to the empty array, the collection becomes the four seed
    records (and they are written back); otherwise it is the stored,
    non-empty array. *)
Theorem startup_collection_nonempty (now : nat → Z) (st : state) :
  let st' := loadInitialData (SEED_QUOTES now) st in
  quotes st' ≠ [] ∧ length (SEED_QUOTES now) = 4 ∧
  match localStorage st !! STORAGE.QUOTES with
  | Some (Parses (JArray (q :: l))) => quotes st' = q :: l
  | _ => quotes st' = SEED_QUOTES now ∧
         localStorage st' !! STORAGE.QUOTES = Some (JSON_stringify (SEED_QUOTES now))
  end.
Proof.
  unfold loadInitialData, readLocalQuotes.
  destruct (localStorage st !! STORAGE.QUOTES) as [[m|[v|o|[|q l]]]|];
    simpl; repeat split; try done; by rewrite lookup_insert_eq.
Qed.

(** ** The normaliser *)

Lemma normalize_one_strings t x :
  well_shaped x = true →
  is_string (text (normalize_one t x)) = true ∧
  is_string (category (normalize_one t x)) = true.
Proof.
  unfold well_shaped. intros H.
  apply andb_true_iff in H as [H Hc]. apply andb_true_iff in H as [_ Ht].
  simpl. destruct (field text x), (field category x); done.
Qed.

(** What the normaliser does guarantee: every record it returns has a
    string [text] and a string [category]. *)
Lemma normalizeImported_strings env raw q :
  q ∈ normalizeImported env raw →
  is_string (text q) = true ∧ is_string (category q) = true.
Proof.
  unfold normalizeImported. intros Hq.
  apply list_elem_of_lookup in Hq as [i Hi].
  rewrite list_lookup_imap in Hi.
  destruct (filter _ raw !! i) as [x|] eqn:Hx; [|done].
  simpl in Hi. injection Hi as <-.
  apply normalize_one_strings.
  apply list_elem_of_lookup_2 in Hx. by apply list_elem_of_filter in Hx as [? _].
Qed.

(** The loop and the filter-then-map form of the normaliser agree. *)
Lemma normalizeImported_loop_spec env arr : ∀ out,
  normalizeImported_loop env arr out
  = out ++ imap (λ i x, normalize_one (env (length out + i)) x)
                (filter (λ x, well_shaped x = true) arr).
Proof.
  induction arr as [|x rest IH]; intros out; simpl.
  - by rewrite app_nil_r.
  - destruct (well_shaped x) eqn:E.
    + rewrite filter_cons_True by done.
      unfold well_shaped in E. apply andb_true_iff in E as [E ->].
      apply andb_true_iff in E as [-> ->]. simpl.
      rewrite IH, <- app_assoc, length_app, Nat.add_0_r. simpl. do 2 f_equal.
      apply imap_ext. intros i y _. simpl. do 2 f_equal. lia.
    + rewrite filter_cons_False by by rewrite E.
      unfold well_shaped in E.
      destruct (item_truthy x), (is_string (field text x)),
        (is_string (field category x)); try done; apply IH.
Qed.

(** X27. The normaliser written as a loop with [continue], as in the
    variant that names it, returns the same records as the filter-then-map
    form of the import handler. *)
Lemma normalizeImported_loop_eq env arr :
  normalizeImported_loop env arr [] = normalizeImported env arr.
Proof. by rewrite normalizeImported_loop_spec. Qed.

(** C2. The normaliser lets a record through whose text is blank: the
    element [{text: "   ", category: "x"}] passes the filter, its text
    trims to the empty string, and the import appends it to the collection. *)
Theorem normalizer_keeps_blank_text (env : nat → tick) :
  let raw := [IObject (mkQuote VUndefined (VStr "   ") (VStr "x")
                               VUndefined VUndefined VUndefined)] in
  let out := normalizeImported env raw in
  (text <$> out) = [VStr ""] ∧
  forallb quote_invariant out = false ∧
  (text <$> quotes (importFromJsonFile (Some (Parses (JArray raw))) env
                      (mkState [] ∅ []))) = [VStr ""].
Proof. by vm_compute. Qed.

(** The two examples of the specification: [" Hi "], ["Wisdom"] become
    ["Hi"], ["wisdom"], and a record whose text is the number 42 is
    dropped. *)
Example normalization_examples (env : nat → tick) :
  content <$> normalizeImported env
    [IObject (mkQuote VUndefined (VStr " Hi ") (VStr "Wisdom") VUndefined VUndefined VUndefined);
     IObject (mkQuote VUndefined (VNum 42) (VStr "x") VUndefined VUndefined VUndefined)]
  = [(VStr "Hi", VStr "wisdom")].
Proof. by vm_compute. Qed.

(** ** Import merge *)

Lemma import_step_cases acc q :
  (import_step acc q =
     mkImportAcc (i_quotes acc) (i_seenId acc) (i_added acc) (S (i_skipped acc))
   ∧ (id q ∈ i_seenId acc ∨ same_content_in (i_quotes acc) q = true))
  ∨ (import_step acc q =
       mkImportAcc (i_quotes acc ++ [q]) ({[ id q ]} ∪ i_seenId acc)
                   (S (i_added acc)) (i_skipped acc)
     ∧ (id q ∉ i_seenId acc) ∧ same_content_in (i_quotes acc) q = false).
Proof.
  unfold import_step.
  destruct (bool_decide (id q ∈ i_seenId acc)) eqn:Hid; simpl.
  - left. split; [done|]. left. by apply bool_decide_eq_true in Hid.
  - apply bool_decide_eq_false in Hid.
    destruct (same_content_in (i_quotes acc) q); [left|right]; auto.
Qed.

(** The loop only ever appends, and counts what it appends. *)
Lemma import_foldl_appends normalized : ∀ acc,
  ∃ appended,
    i_quotes (foldl import_step acc normalized) = i_quotes acc ++ appended ∧
    i_added (foldl import_step acc normalized) = (i_added acc + length appended)%nat.
Proof.
  induction normalized as [|q l IH]; intros acc; simpl.
  - exists []. by rewrite app_nil_r, Nat.add_0_r.
  - destruct (import_step_cases acc q) as [[-> _]|[-> _]];
      match goal with |- context [foldl _ ?a l] => destruct (IH a) as (app & Hq & Ha) end;
      simpl in Hq, Ha.
    + by exists app.
    + exists (q :: app). rewrite Hq, Ha, <- app_assoc. simpl. split; [done|lia].
Qed.

(** The set of seen ids is the set of ids of the collection, all along. *)
Lemma import_foldl_seen normalized : ∀ acc,
  i_seenId acc = list_to_set (ids (i_quotes acc)) →
  i_seenId (foldl import_step acc normalized)
  = list_to_set (ids (i_quotes (foldl import_step acc normalized))).
Proof.
  induction normalized as [|q l IH]; intros acc Hacc; simpl; [done|].
  apply IH.
  destruct (import_step_cases acc q) as [[E _]|[E _]]; rewrite E; simpl; [done|].
  unfold ids. rewrite fmap_app, list_to_set_app_L. simpl.
  fold (ids (i_quotes acc)). rewrite <- Hacc, union_empty_r_L. apply (comm_L (∪)).
Qed.

Lemma import_foldl_NoDup normalized : ∀ acc,
  i_seenId acc = list_to_set (ids (i_quotes acc)) →
  NoDup (ids (i_quotes acc)) →
  NoDup (ids (i_quotes (foldl import_step acc normalized))).
Proof.
  induction normalized as [|q l IH]; intros acc Hseen Hnd; simpl; [done|].
  destruct (import_step_cases acc q) as [[E _]|[E [Hfresh _]]].
  - rewrite E. by apply IH.
  - pose proof (import_foldl_seen [q] acc Hseen) as Hseen'. simpl in Hseen'.
    apply IH; [done|]. rewrite E. simpl.
    unfold ids. rewrite fmap_app. simpl. apply NoDup_app. split; [done|].
    split; [|apply NoDup_singleton].
    intros k Hk Hk'. apply list_elem_of_singleton in Hk'. subst k.
    apply Hfresh. rewrite Hseen. by apply elem_of_list_to_set.
Qed.

(** C3. Import is additive: the merged collection starts with the existing
    collection, record for record and position for position, and it is
    longer by exactly the added count. *)
Theorem import_is_additive (existing normalized : list Quote) :
  let '(merged, added, skipped) := importMerge existing normalized in
  take (length existing) merged = existing ∧
  length merged = (length existing + added)%nat.
Proof.
  unfold importMerge, import_loop.
  destruct (import_foldl_appends normalized (import_init existing)) as (app & Hq & Ha).
  rewrite Hq, Ha. simpl. split.
  - by rewrite take_app_length.
  - by rewrite length_app.
Qed.

(** Every incoming record is either added or skipped. *)
Lemma import_counts normalized : ∀ acc,
  (i_added (foldl import_step acc normalized)
   + i_skipped (foldl import_step acc normalized)
   = i_added acc + i_skipped acc + length normalized)%nat.
Proof.
  induction normalized as [|q l IH]; intros acc; simpl; [lia|].
  rewrite IH. destruct (import_step_cases acc q) as [[E _]|[E _]]; rewrite E; simpl; lia.
Qed.

Lemma same_content_in_true qs q x :
  x ∈ qs → text x = text q → category x = category q → same_content_in qs q = true.
Proof.
  intros Hx Ht Hc. unfold same_content_in. apply existsb_exists.
  exists x. split; [by apply list_elem_of_In|].
  by rewrite !bool_decide_eq_true_2.
Qed.

(** C7. Content de-duplication: when the existing collection holds a record
    with the same text and category as an incoming record, that incoming
    record (whatever its id, a fresh one included) raises the skipped count by
    one and leaves the collection and the added count as they were. *)
Theorem import_content_dedup (existing pre : list Quote) (q x : Quote) :
  x ∈ existing → text x = text q → category x = category q →
  importMerge existing (pre ++ [q])
  = let '(merged, added, skipped) := importMerge existing pre in
    (merged, added, S skipped).
Proof.
  intros Hx Ht Hc. unfold importMerge, import_loop.
  rewrite foldl_app. simpl.
  destruct (import_foldl_appends pre (import_init existing)) as (app & Hq & _).
  simpl in Hq. set (acc := foldl import_step (import_init existing) pre) in *.
  unfold import_step.
  rewrite (same_content_in_true (i_quotes acc) q x), orb_true_r; try done.
  rewrite Hq. apply elem_of_app. by left.
Qed.

(** ** Sync merge: the index and the collection *)

Lemma unique_id qs i j q q' :
  NoDup (ids qs) → qs !! i = Some q → qs !! j = Some q' → id q = id q' → i = j.
Proof.
  intros Hnd Hi Hj E.
  eapply (proj1 (NoDup_alt (ids qs)) Hnd i j (id q)); unfold ids;
    rewrite list_lookup_fmap; [by rewrite Hi | by rewrite Hj, E].
Qed.

Lemma unique_record qs q q' :
  NoDup (ids qs) → q ∈ qs → q' ∈ qs → id q = id q' → q = q'.
Proof.
  intros Hnd [i Hi]%list_elem_of_lookup [j Hj]%list_elem_of_lookup E.
  assert (i = j) as -> by eauto using unique_id. congruence.
Qed.

Lemma findIndex_id_Some k qs idx :
  findIndex_id k qs = Some idx → ∃ q, qs !! idx = Some q ∧ id q = k.
Proof.
  unfold findIndex_id. destruct (list_find _ qs) as [[i q]|] eqn:E; [|done].
  simpl. intros [= <-]. apply list_find_Some in E as (? & ? & _). eauto.
Qed.

Lemma findIndex_id_None k qs : findIndex_id k qs = None → k ∉ ids qs.
Proof.
  unfold findIndex_id. destruct (list_find _ qs) as [[i q]|] eqn:E; [done|].
  intros _ Hk. apply list_find_None in E.
  apply list_elem_of_fmap in Hk as (q & -> & Hq).
  by eapply Forall_forall in E.
Qed.

Lemma findIndex_id_unique qs i q :
  NoDup (ids qs) → qs !! i = Some q → findIndex_id (id q) qs = Some i.
Proof.
  intros Hnd Hi.
  destruct (findIndex_id (id q) qs) as [j|] eqn:E.
  - apply findIndex_id_Some in E as (q' & Hj & E). f_equal. eauto using unique_id.
  - apply findIndex_id_None in E. destruct E.
    apply list_elem_of_fmap. exists q. eauto using list_elem_of_lookup_2.
Qed.

Lemma ids_insert_same qs idx old s :
  qs !! idx = Some old → id old = id s → ids (<[idx := s]> qs) = ids qs.
Proof.
  intros Hidx E. unfold ids. rewrite list_fmap_insert, <- E.
  apply list_insert_id. by rewrite list_lookup_fmap, Hidx.
Qed.

Lemma by_id_ok_push qs m s :
  by_id_ok qs m → m !! id s = None → by_id_ok (qs ++ [s]) (<[id s := s]> m).
Proof.
  intros [Hnd Hm] Hnone.
  assert (id s ∉ ids qs) as Hfresh.
  { intros (q & E & Hq)%list_elem_of_fmap.
    assert (m !! id s = Some q) by (apply Hm; done). congruence. }
  split.
  - unfold ids. rewrite fmap_app. apply NoDup_app. repeat split; try done.
    + intros k Hk ->%list_elem_of_singleton. done.
    + apply NoDup_singleton.
  - intros k q. rewrite elem_of_app, list_elem_of_singleton.
    destruct (decide (id s = k)) as [<-|Hne].
    + rewrite lookup_insert_eq. split.
      * intros [= <-]. auto.
      * intros [[Hq | ->] E]; [|done]. destruct Hfresh.
        apply list_elem_of_fmap. eauto.
    + rewrite lookup_insert_ne by done. rewrite Hm. split.
      * intros [? ?]. auto.
      * intros [[?| ->] ?]; [done|congruence].
Qed.

Lemma by_id_ok_replace qs m idx old s :
  by_id_ok qs m → qs !! idx = Some old → id old = id s →
  by_id_ok (<[idx := s]> qs) (<[id s := s]> m).
Proof.
  intros [Hnd Hm] Hidx E.
  assert (NoDup (ids (<[idx := s]> qs))) as Hnd'
    by (by erewrite ids_insert_same).
  assert (s ∈ <[idx := s]> qs) as Hs
    by (apply list_elem_of_insert; eauto using lookup_lt_Some).
  split; [done|]. intros k q.
  destruct (decide (id s = k)) as [<-|Hne].
  - rewrite lookup_insert_eq. split.
    + intros [= <-]. done.
    + intros [Hq Eq]. f_equal. symmetry. eauto using unique_record.
  - rewrite lookup_insert_ne by done. rewrite Hm. split.
    + intros [[j Hj]%list_elem_of_lookup Eq]. split; [|done].
      apply list_elem_of_lookup. exists j.
      rewrite list_lookup_insert_ne; [done|]. intros ->. congruence.
    + intros [[j Hj]%list_elem_of_lookup Eq]. split; [|done].
      apply list_lookup_insert_Some in Hj as [(-> & -> & _)|[_ Hj]]; [done|].
      eauto using list_elem_of_lookup_2.
Qed.

Lemma Map_by_id_snoc qs q : Map_by_id (qs ++ [q]) = <[id q := q]> (Map_by_id qs).
Proof. unfold Map_by_id. by rewrite foldl_app. Qed.

Lemma by_id_ok_init existing :
  NoDup (ids existing) → by_id_ok existing (Map_by_id existing).
Proof.
  induction existing as [|q qs IH] using rev_ind; intros Hnd.
  - split; [done|]. intros k q. unfold Map_by_id. simpl.
    rewrite lookup_empty. split; [done|]. by intros [?%elem_of_nil _].
  - rewrite Map_by_id_snoc.
    unfold ids in Hnd. rewrite fmap_app in Hnd.
    apply NoDup_app in Hnd as (Hnd & Hfresh & _).
    apply by_id_ok_push; [by apply IH|].
    destruct (Map_by_id qs !! id q) as [q'|] eqn:E; [|done].
    apply (IH Hnd) in E as [Hq' E]. destruct (Hfresh (id q)).
    + apply list_elem_of_fmap. eauto.
    + simpl. apply list_elem_of_singleton. done.
Qed.

(** ** Sync merge: one turn of the loop *)

Lemma differs_false local s :
  differs local s = false ↔ text local = text s ∧ category local = category s.
Proof.
  unfold differs. rewrite orb_false_iff, !bool_decide_eq_false.
  split; intros [H1 H2]; split; try (by intros ?);
    destruct (decide (text local = text s)), (decide (category local = category s));
    done.
Qed.


Lemma sync_step_push acc s :
  s_localById acc !! id s = None →
  sync_step acc s = mkSyncAcc (s_quotes acc ++ [s]) (<[id s := s]> (s_localById acc))
                              (S (s_added acc)) (s_replaced acc).
Proof. intros E. unfold sync_step. by rewrite E. Qed.

Lemma sync_step_replace acc s local idx :
  s_localById acc !! id s = Some local → differs local s = true →
  findIndex_id (id s) (s_quotes acc) = Some idx →
  sync_step acc s = mkSyncAcc (<[idx := s]> (s_quotes acc)) (<[id s := s]> (s_localById acc))
                              (s_added acc) (S (s_replaced acc)).
Proof.
  intros E Hd Hidx. unfold sync_step. by rewrite E, Hd, Hidx.
Qed.

Lemma sync_step_same acc s local :
  s_localById acc !! id s = Some local → differs local s = false →
  sync_step acc s = acc.
Proof.
  intros E Hd. unfold sync_step. by rewrite E, Hd.
Qed.

(** A turn of the loop appends the record, writes it over a record with its
    id, or changes nothing in the collection. *)
Lemma sync_step_quotes acc s :
  (s_quotes (sync_step acc s) = s_quotes acc ++ [s]
   ∧ s_added (sync_step acc s) = S (s_added acc))
  ∨ (s_added (sync_step acc s) = s_added acc
     ∧ (s_quotes (sync_step acc s) = s_quotes acc
        ∨ ∃ idx old, s_quotes acc !! idx = Some old ∧ id old = id s
                     ∧ s_quotes (sync_step acc s) = <[idx := s]> (s_quotes acc))).
Proof.
  unfold sync_step. destruct (s_localById acc !! id s) as [local|]; [|left; done].
  right. destruct (differs local s); [|auto]. simpl. split; [done|].
  destruct (findIndex_id (id s) (s_quotes acc)) as [idx|] eqn:E; [|auto].
  apply findIndex_id_Some in E as (old & ? & ?). right. eauto.
Qed.

Lemma sync_foldl_length serverQuotes : ∀ acc,
  length (s_quotes (foldl sync_step acc serverQuotes)) + s_added acc
  = length (s_quotes acc) + s_added (foldl sync_step acc serverQuotes).
Proof.
  induction serverQuotes as [|s l IH]; intros acc; simpl; [done|].
  rewrite <- Nat.add_cancel_r with (p := s_added (sync_step acc s)), <- Nat.add_assoc,
    (Nat.add_comm (s_added acc)), Nat.add_assoc, IH.
  destruct (sync_step_quotes acc s) as [[-> ->]|[-> [->|(idx & old & _ & _ & ->)]]];
    rewrite ?length_app, ?length_insert; simpl; lia.
Qed.

Lemma sync_foldl_frame serverQuotes : ∀ acc i q,
  s_quotes acc !! i = Some q → id q ∉ ids serverQuotes →
  s_quotes (foldl sync_step acc serverQuotes) !! i = Some q.
Proof.
  induction serverQuotes as [|s l IH]; intros acc i q Hi Hq; simpl; [done|].
  unfold ids in Hq. rewrite fmap_cons, not_elem_of_cons in Hq. destruct Hq as [Hne Hq].
  apply IH; [|done].
  destruct (sync_step_quotes acc s) as [[-> _]|[_ [->|(idx & old & Hidx & E & ->)]]].
  - by apply lookup_app_l_Some.
  - done.
  - rewrite list_lookup_insert_ne; [done|]. intros ->. congruence.
Qed.

(** C9. Sync removes nothing: the merged collection is longer than the
    existing one by exactly the added count, and an existing record whose id
    does not occur among the incoming records is found unchanged at its
    position. *)
Theorem sync_never_removes (existing serverQuotes : list Quote) :
  let '(merged, added, replaced) := mergeServerQuotes existing serverQuotes in
  length merged = length existing + added ∧
  ∀ i q, existing !! i = Some q → id q ∉ ids serverQuotes → merged !! i = Some q.
Proof.
  unfold mergeServerQuotes, sync_loop. split.
  - pose proof (sync_foldl_length serverQuotes (sync_init existing)) as H.
    simpl in H. lia.
  - intros i q Hi Hq. by apply sync_foldl_frame.
Qed.

(** ** Sync merge: the index stays right *)

Lemma by_id_ok_step acc s :
  by_id_ok (s_quotes acc) (s_localById acc) →
  by_id_ok (s_quotes (sync_step acc s)) (s_localById (sync_step acc s)).
Proof.
  intros Hok.
  destruct (s_localById acc !! id s) as [local|] eqn:E.
  - destruct (differs local s) eqn:Hd.
    + destruct (findIndex_id (id s) (s_quotes acc)) as [idx|] eqn:Hidx.
      * rewrite (sync_step_replace acc s local idx) by done. simpl.
        apply findIndex_id_Some in Hidx as (old & ? & ?).
        eauto using by_id_ok_replace.
      * apply findIndex_id_None in Hidx. destruct Hidx.
        apply Hok in E as [? ?]. apply list_elem_of_fmap. eauto.
    + by rewrite (sync_step_same acc s local).
  - rewrite sync_step_push by done. simpl. by apply by_id_ok_push.
Qed.

Lemma by_id_ok_foldl serverQuotes : ∀ acc,
  by_id_ok (s_quotes acc) (s_localById acc) →
  by_id_ok (s_quotes (foldl sync_step acc serverQuotes))
           (s_localById (foldl sync_step acc serverQuotes)).
Proof.
  induction serverQuotes as [|s l IH]; intros acc Hok; simpl; [done|].
  by apply IH, by_id_ok_step.
Qed.

Lemma by_id_ok_loop existing serverQuotes :
  NoDup (ids existing) →
  by_id_ok (s_quotes (sync_loop existing serverQuotes))
           (s_localById (sync_loop existing serverQuotes)).
Proof. intros Hnd. by apply by_id_ok_foldl, by_id_ok_init. Qed.

(** One turn of the loop on a record whose id is stored at position [i]. *)
Lemma sync_step_at acc s q i :
  by_id_ok (s_quotes acc) (s_localById acc) →
  s_quotes acc !! i = Some q → id q = id s →
  sync_step acc s =
    if differs q s
    then mkSyncAcc (<[i := s]> (s_quotes acc)) (<[id s := s]> (s_localById acc))
                   (s_added acc) (S (s_replaced acc))
    else acc.
Proof.
  intros Hok Hi E.
  assert (s_localById acc !! id s = Some q) as Hlocal.
  { apply Hok. eauto using list_elem_of_lookup_2. }
  destruct (differs q s) eqn:Hd.
  - apply (sync_step_replace acc s q i); try done.
    rewrite <- E. apply findIndex_id_unique; [apply Hok|done].
  - by apply (sync_step_same acc s q).
Qed.


(** X28. Server wins over a whole sync: with ids pairwise distinct in the
    collection and among the incoming records, the record stored at position
    [i] under the id of an incoming record [s] is [s] after the sync when
    the two differed in text or category, and is untouched when they did
    not. *)
Lemma sync_server_wins_whole (existing serverQuotes : list Quote) (s q : Quote) (i : nat) :
  NoDup (ids existing) → NoDup (ids serverQuotes) →
  existing !! i = Some q → s ∈ serverQuotes → id q = id s →
  (mergeServerQuotes existing serverQuotes).1.1 !! i
  = Some (if differs q s then s else q).
Proof.
  intros Hnd Hinc Hi [pre [post ->]]%list_elem_of_split E. simpl.
  unfold ids in Hinc. rewrite fmap_app, fmap_cons in Hinc.
  apply NoDup_app in Hinc as (_ & Hpre & [Hpost _]%NoDup_cons).
  pose proof (by_id_ok_loop existing pre Hnd) as Hok.
  unfold sync_loop in *. rewrite foldl_app. simpl.
  set (acc := foldl sync_step (sync_init existing) pre) in *.
  assert (s_quotes acc !! i = Some q) as Hacc.
  { apply sync_foldl_frame; [done|]. rewrite E. intros Hin.
    apply (Hpre _ Hin). by left. }
  apply sync_foldl_frame.
  - rewrite (sync_step_at acc s q i) by done.
    destruct (differs q s); simpl; [|done].
    apply list_lookup_insert_eq. eauto using lookup_lt_Some.
  - by destruct (differs q s); rewrite ?E.
Qed.

(** ** Sync merge: a second pass finds nothing to do *)

Lemma consistent_spec l s1 s2 :
  consistent l = true → s1 ∈ l → s2 ∈ l → id s1 = id s2 →
  text s1 = text s2 ∧ category s1 = category s2.
Proof.
  unfold consistent. intros H H1%list_elem_of_In H2%list_elem_of_In E.
  rewrite forallb_forall in H. specialize (H s1 H1).
  rewrite forallb_forall in H. specialize (H s2 H2).
  rewrite bool_decide_eq_true_2 in H by done. simpl in H.
  apply andb_true_iff in H as [Ht Hc].
  by apply bool_decide_eq_true in Ht, Hc.
Qed.

Lemma NoDup_ids_consistent l : NoDup (ids l) → consistent l = true.
Proof.
  intros Hnd. unfold consistent.
  apply forallb_forall. intros s1 H1%list_elem_of_In.
  apply forallb_forall. intros s2 H2%list_elem_of_In.
  destruct (decide (id s1 = id s2)) as [E|Hne].
  - assert (s1 = s2) as -> by eauto using unique_record.
    by rewrite !bool_decide_eq_true_2.
  - by rewrite bool_decide_eq_false_2.
Qed.

Lemma settled_step acc s' s :
  by_id_ok (s_quotes acc) (s_localById acc) →
  (id s = id s' → text s = text s' ∧ category s = category s') →
  settled (s_quotes acc) s ∨ s = s' →
  settled (s_quotes (sync_step acc s')) s.
Proof.
  intros Hok Hagree Hs.
  assert (∀ q, q ∈ s_quotes (sync_step acc s') → id q = id s →
               text q = text s → category q = category s →
               settled (s_quotes (sync_step acc s')) s) as Hfound
    by (intros q ? ? ? ?; exists q; done).
  destruct (s_localById acc !! id s') as [local|] eqn:E.
  - pose proof E as [Hlocal Eid]%Hok.
    destruct (differs local s') eqn:Hd.
    + destruct (findIndex_id (id s') (s_quotes acc)) as [idx|] eqn:Hidx.
      2:{ apply findIndex_id_None in Hidx. destruct Hidx.
          apply list_elem_of_fmap. eauto. }
      rewrite (sync_step_replace acc s' local idx) in * by done. simpl in *.
      apply findIndex_id_Some in Hidx as (old & Hold & Eold).
      assert (s' ∈ <[idx := s']> (s_quotes acc)) as Hin
        by (apply list_elem_of_insert; eauto using lookup_lt_Some).
      destruct (decide (id s = id s')) as [Eid'|Hne].
      * destruct (Hagree Eid') as [? ?]. by apply (Hfound s').
      * destruct Hs as [(q & [j Hj]%list_elem_of_lookup & ? & ? & ?)| ->]; [|done].
        apply (Hfound q); try done.
        apply list_elem_of_lookup. exists j.
        rewrite list_lookup_insert_ne; [done|]. intros ->. congruence.
    + rewrite (sync_step_same acc s' local) by done.
      destruct Hs as [?| ->]; [done|].
      apply differs_false in Hd as [? ?]. by exists local.
  - rewrite sync_step_push in * by done. simpl in *.
    destruct Hs as [(q & ? & ? & ? & ?)| ->].
    + apply (Hfound q); try done. apply elem_of_app. by left.
    + apply (Hfound s'); try done. apply elem_of_app. right. by apply list_elem_of_singleton.
Qed.

Lemma sync_foldl_settles serverQuotes : ∀ acc done,
  by_id_ok (s_quotes acc) (s_localById acc) →
  (∀ s, s ∈ done → settled (s_quotes acc) s) →
  consistent (done ++ serverQuotes) = true →
  ∀ s, s ∈ done ++ serverQuotes →
       settled (s_quotes (foldl sync_step acc serverQuotes)) s.
Proof.
  induction serverQuotes as [|s' l IH]; intros acc done Hok Hdone Hcons s Hs; simpl.
  - rewrite app_nil_r in Hs. auto.
  - apply (IH (sync_step acc s') (done ++ [s'])).
    + by apply by_id_ok_step.
    + intros s0 Hs0. apply settled_step; [done| |].
      * apply (consistent_spec _ _ _ Hcons).
        -- apply elem_of_app in Hs0 as [?| ->%list_elem_of_singleton];
             apply elem_of_app; [by left|right; by left].
        -- apply elem_of_app. right. by left.
      * apply elem_of_app in Hs0 as [?| ->%list_elem_of_singleton]; auto.
    + by rewrite <- app_assoc.
    + by rewrite <- app_assoc.
Qed.

Lemma sync_foldl_noop serverQuotes : ∀ acc,
  by_id_ok (s_quotes acc) (s_localById acc) →
  (∀ s, s ∈ serverQuotes → settled (s_quotes acc) s) →
  foldl sync_step acc serverQuotes = acc.
Proof.
  induction serverQuotes as [|s l IH]; intros acc Hok Hall; simpl; [done|].
  assert (sync_step acc s = acc) as ->.
  { destruct (Hall s) as (q & Hq & Eid & Et & Ec); [by left|].
    apply (sync_step_same acc s q); [by apply Hok|].
    by apply differs_false. }
  apply IH; [done|]. intros s0 ?. apply Hall. by right.
Qed.

(** C5, as it holds.  When the collection has pairwise distinct ids and
    incoming records that share an id also share text and category, a second
    sync with the same incoming records adds nothing, replaces nothing and
    leaves the collection as the first sync made it. *)
Theorem sync_idempotent (existing serverQuotes : list Quote) :
  NoDup (ids existing) → consistent serverQuotes = true →
  let '(merged, added, replaced) := mergeServerQuotes existing serverQuotes in
  mergeServerQuotes merged serverQuotes = (merged, 0, 0).
Proof.
  intros Hnd Hcons. unfold mergeServerQuotes.
  pose proof (by_id_ok_loop existing serverQuotes Hnd) as [Hnd1 _].
  pose proof (sync_foldl_settles serverQuotes (sync_init existing) []
                (by_id_ok_init existing Hnd) ltac:(by intros ? ?%elem_of_nil) Hcons) as Hall.
  fold (sync_loop existing serverQuotes) in Hall.
  set (merged := s_quotes (sync_loop existing serverQuotes)) in *.
  unfold sync_loop at 1 2 3.
  rewrite sync_foldl_noop; [done| by apply by_id_ok_init | done].
Qed.

(** ** Identity uniqueness along a run *)

Lemma addQuote_quotes_eq tv cv t sel st :
  quotes (addQuote tv cv t sel st) =
  if (trim tv =? "")%string || (toLowerCase (trim cv) =? "")%string then quotes st
  else quotes st ++ [mkQuote (local_id t) (VStr (trim tv)) (VStr (toLowerCase (trim cv)))
                             (VStr "local") (VNum 1) (VNum (now_updated t))].
Proof.
  unfold addQuote. destruct (_ || _); [done|]. simpl.
  destruct (populateCategories_raises _); [done|]. by destruct (_ || _).
Qed.

Lemma addQuote_quotes tv cv t sel st :
  quotes (addQuote tv cv t sel st) = quotes st
  ∨ ∃ q, quotes (addQuote tv cv t sel st) = quotes st ++ [q] ∧ id q = local_id t.
Proof.
  rewrite addQuote_quotes_eq. destruct (_ || _); [by left|]. right.
  by eexists.
Qed.

Lemma importFromJsonFile_quotes raw env st :
  quotes (importFromJsonFile (Some (Parses (JArray raw))) env st)
  = i_quotes (import_loop (quotes st) (normalizeImported env raw)).
Proof. simpl. by destruct (populateCategories_raises _). Qed.

Lemma importFromJsonFile_quotes_cases file env st :
  quotes (importFromJsonFile file env st) = quotes st
  ∨ ∃ raw, quotes (importFromJsonFile file env st)
           = i_quotes (import_loop (quotes st) (normalizeImported env raw)).
Proof.
  destruct file as [[m|[v|o|raw]]|]; eauto.
  right. exists raw. apply importFromJsonFile_quotes.
Qed.

Lemma syncWithServer_quotes r nf sel ns st :
  quotes (syncWithServer r nf sel ns st) =
  match fetchServerQuotes r nf with
  | inl _ => quotes st
  | inr serverQuotes => s_quotes (sync_loop (quotes st) serverQuotes)
  end.
Proof.
  unfold syncWithServer, mergeServerQuotes.
  destruct (fetchServerQuotes r nf) as [m|sq]; [done|].
  simpl. destruct (negb _ || negb _); [|done].
  destruct (populateCategories_raises _); [done|]. by destruct (_ || _).
Qed.

Lemma apply_op_NoDup o st :
  NoDup (ids (quotes st)) →
  match o with OpAdd _ _ t _ => local_id t ∉ ids (quotes st) | _ => True end →
  NoDup (ids (quotes (apply_op st o))).
Proof.
  intros Hnd Hfresh. destruct o as [tv cv t sel|file env|r nf sel ns]; simpl.
  - destruct (addQuote_quotes tv cv t sel st) as [->|(q & -> & E)]; [done|].
    unfold ids. rewrite fmap_app. apply NoDup_app. repeat split; try done.
    + intros k Hk ->%list_elem_of_singleton. by rewrite E in Hk.
    + apply NoDup_singleton.
  - destruct (importFromJsonFile_quotes_cases file env st) as [->|[raw ->]]; [done|].
    by apply import_foldl_NoDup.
  - rewrite syncWithServer_quotes.
    destruct (fetchServerQuotes r nf) as [m|sq]; [done|].
    by apply by_id_ok_loop.
Qed.

(** C1, as it holds.  Starting from a collection with pairwise distinct
    ids, any sequence of add, import and sync operations in which each add
    draws an id the collection does not hold yet ends in a collection with
    pairwise distinct ids. *)
Theorem identity_uniqueness (ops : list operation) (st : state) :
  NoDup (ids (quotes st)) → adds_fresh ops st →
  NoDup (ids (quotes (run ops st))).
Proof.
  revert st. induction ops as [|o ops IH]; intros st Hnd Hfresh; simpl; [done|].
  destruct Hfresh as [Ho Hrest]. apply IH; [|done]. by apply apply_op_NoDup.
Qed.

(** Import and sync keep ids distinct on their own, with no assumption on
    the environment. *)
Lemma merges_keep_ids_distinct (existing incoming : list Quote) :
  NoDup (ids existing) →
  NoDup (ids (importMerge existing incoming).1.1) ∧
  NoDup (ids (mergeServerQuotes existing incoming).1.1).
Proof.
  intros Hnd. split; simpl.
  - by apply import_foldl_NoDup.
  - by apply by_id_ok_loop.
Qed.

(** ** Persistence *)

Lemma effects_app (f : state → state) st evs :
  trace (f st) = trace st ++ evs → effects f st = evs.
Proof. unfold effects. intros ->. by rewrite drop_app_length. Qed.





(** ** Export, then import into an empty collection *)

Lemma exportToJson_effects st :
  effects exportToJson st =
  [Download "quotes-export.json" (as_file (quotes st));
   SetStatus "Exported quotes to JSON file." "info"].
Proof. apply effects_app. unfold exportToJson. simpl. by rewrite <- app_assoc. Qed.

(** The exported file is the whole collection, and exporting leaves the
    collection and the durable store alone. *)
Lemma exported_file_is_collection st :
  exported_file st = Some (as_file (quotes st)) ∧
  quotes (exportToJson st) = quotes st ∧
  localStorage (exportToJson st) = localStorage st.
Proof. unfold exported_file. by rewrite exportToJson_effects. Qed.

Lemma well_formed_shape q : well_formed q = true → well_shaped (IObject q) = true.
Proof.
  unfold well_formed, normal_content, well_shaped. simpl.
  rewrite !andb_true_iff. by intros (_ & (? & ?) & _).
Qed.

(** Normalising a well-formed record again changes none of id, text and
    category. *)
Lemma normalize_one_well_formed t q :
  well_formed q = true → triple (normalize_one t (IObject q)) = triple q.
Proof.
  unfold well_formed, normal_content, triple, normalize_one, js_or. simpl.
  rewrite !andb_true_iff, !bool_decide_eq_true.
  intros (-> & (_ & -> ) & ->). done.
Qed.

Lemma normalizeImported_well_formed qs : ∀ env,
  Forall (λ q, well_formed q = true) qs →
  triple <$> normalizeImported env (IObject <$> qs) = triple <$> qs.
Proof.
  unfold normalizeImported.
  induction qs as [|q l IH]; intros env Hwf; [done|].
  apply Forall_cons in Hwf as [Hq Hl].
  rewrite fmap_cons, filter_cons_True by by apply well_formed_shape.
  rewrite imap_cons, !fmap_cons, normalize_one_well_formed by done.
  f_equal. apply (IH (env ∘ S) Hl).
Qed.

Lemma ids_of_triples (qs : list Quote) : ids qs = (λ p, p.1.1) <$> (triple <$> qs).
Proof. unfold ids. rewrite <- list_fmap_compose. done. Qed.

Lemma contents_of_triples (qs : list Quote) :
  content <$> qs = (λ p, (p.1.2, p.2)) <$> (triple <$> qs).
Proof. rewrite <- list_fmap_compose. done. Qed.

Lemma same_content_in_false (qs : list Quote) q :
  content q ∉ content <$> qs → same_content_in qs q = false.
Proof.
  intros Hq. unfold same_content_in.
  destruct (existsb _ qs) eqn:E; [|done].
  apply existsb_exists in E as (x & Hx%list_elem_of_In & E).
  apply andb_true_iff in E as [Et%bool_decide_eq_true Ec%bool_decide_eq_true].
  destruct Hq. apply list_elem_of_fmap. exists x. unfold content. by rewrite Et, Ec.
Qed.

(** When nothing collides, by id or by content, every incoming record is
    appended. *)
Lemma import_foldl_all_new normalized : ∀ acc,
  i_seenId acc = list_to_set (ids (i_quotes acc)) →
  NoDup (ids (i_quotes acc ++ normalized)) →
  NoDup (content <$> (i_quotes acc ++ normalized)) →
  i_quotes (foldl import_step acc normalized) = i_quotes acc ++ normalized.
Proof.
  induction normalized as [|q l IH]; intros acc Hseen Hids Hcont; simpl.
  - by rewrite app_nil_r.
  - assert (import_step acc q =
            mkImportAcc (i_quotes acc ++ [q]) ({[ id q ]} ∪ i_seenId acc)
                        (S (i_added acc)) (i_skipped acc)) as E.
    { unfold import_step.
      rewrite bool_decide_eq_false_2, same_content_in_false; [done| |].
      - rewrite fmap_app, fmap_cons in Hcont.
        apply NoDup_app in Hcont as (_ & Hdisj & _).
        intros Hin. apply (Hdisj _ Hin). by left.
      - unfold ids in Hids. rewrite fmap_app, fmap_cons in Hids.
        apply NoDup_app in Hids as (_ & Hdisj & _).
        rewrite Hseen, elem_of_list_to_set. intros Hin. apply (Hdisj _ Hin). by left. }
    pose proof (import_foldl_seen [q] acc Hseen) as Hseen'. simpl in Hseen'.
    rewrite IH; rewrite E in *; simpl in *; rewrite <- ?app_assoc; done.
Qed.

(** A well-formed record whose id [JSON.stringify] writes as it is goes
    through the exported text unchanged in id, text and category. *)
Lemma json_record_well_formed q :
  well_formed q = true → json_val (id q) = id q →
  well_formed (json_record q) = true ∧ triple (json_record q) = triple q.
Proof.
  unfold well_formed, normal_content, triple. simpl.
  rewrite !andb_true_iff, !bool_decide_eq_true.
  intros (Hid & ((Ht & Hc) & Htt) & Hcc) ->.
  destruct (text q) as [| | | |s|]; try done.
  destruct (category q) as [| | | |c|]; try done.
Qed.

Lemma json_records_well_formed (qs : list Quote) :
  Forall (λ q, well_formed q = true) qs →
  Forall (λ q, json_val (id q) = id q) qs →
  Forall (λ q, well_formed q = true) (json_record <$> qs) ∧
  triple <$> (json_record <$> qs) = triple <$> qs.
Proof.
  induction qs as [|q l IH]; intros Hwf Hid; [done|].
  apply Forall_cons in Hwf as [Hq Hl]. apply Forall_cons in Hid as [Hqi Hli].
  destruct (IH Hl Hli) as [IH1 IH2].
  destruct (json_record_well_formed q Hq Hqi) as [H1 H2].
  rewrite !fmap_cons, H2, IH2. split; [|done]. by apply Forall_cons.
Qed.

(** C8, as it holds.  For a collection of well-formed records (truthy ids,
    text and category in normal form) whose ids [JSON.stringify] writes as
    they are (no non-finite number), in which ids are pairwise distinct and
    so are the (text, category) pairs, exporting and importing the exported
    file into an empty collection gives back the same records, in the same
    order, compared by id, text and category. *)
Theorem export_import_roundtrip (st empty : state) (env : nat → tick) :
  quotes empty = [] →
  Forall (λ q, well_formed q = true) (quotes st) →
  Forall (λ q, json_val (id q) = id q) (quotes st) →
  NoDup (ids (quotes st)) →
  NoDup (content <$> quotes st) →
  triple <$> quotes (importFromJsonFile (exported_file st) env empty)
  = triple <$> quotes st.
Proof.
  intros Hempty Hwf Hfin Hids Hcont.
  destruct (exported_file_is_collection st) as (-> & _).
  destruct (json_records_well_formed (quotes st) Hwf Hfin) as [Hwf' Hjson].
  unfold as_file. rewrite importFromJsonFile_quotes, Hempty.
  pose proof (normalizeImported_well_formed (json_record <$> quotes st) env Hwf') as Htr.
  rewrite Hjson in Htr.
  set (incoming := normalizeImported env (IObject <$> (json_record <$> quotes st))) in *.
  unfold import_loop.
  rewrite import_foldl_all_new; simpl; try done.
  - by rewrite ids_of_triples, Htr, <- ids_of_triples.
  - by rewrite contents_of_triples, Htr, <- contents_of_triples.
Qed.

(** * Well-formed records

    The hypotheses of the round trip are met by every record the program
    itself creates: adding, importing and syncing keep a collection of
    well-formed records well-formed. *)

Lemma is_space_lower a : is_space (lower_ascii a) = is_space a.
Proof. by destruct a as [[] [] [] [] [] [] [] []]. Qed.

Lemma lower_ascii_idemp a : lower_ascii (lower_ascii a) = lower_ascii a.
Proof. by destruct a as [[] [] [] [] [] [] [] []]. Qed.

Lemma trimStart_list_head l :
  match trimStart_list l with [] => True | a :: _ => is_space a = false end.
Proof.
  induction l as [|a l IH]; simpl; [done|].
  destruct (is_space a) eqn:E; [done|]. exact E.
Qed.

Lemma trimStart_list_fixed a l : is_space a = false → trimStart_list (a :: l) = a :: l.
Proof. intros E. simpl. by rewrite E. Qed.

Lemma trimStart_list_snoc l a :
  is_space a = false → trimStart_list (l ++ [a]) = trimStart_list l ++ [a].
Proof.
  intros E. induction l as [|b l IH]; simpl.
  - by rewrite E.
  - by destruct (is_space b).
Qed.

Lemma trimEnd_list_cons a l :
  is_space a = false → trimEnd_list (a :: l) = a :: trimEnd_list l.
Proof.
  intros E. unfold trimEnd_list. simpl.
  by rewrite trimStart_list_snoc, rev_app_distr.
Qed.

Lemma trimStart_list_idemp l : trimStart_list (trimStart_list l) = trimStart_list l.
Proof.
  pose proof (trimStart_list_head l) as H.
  destruct (trimStart_list l) as [|a m]; [done|]. by apply trimStart_list_fixed.
Qed.

Lemma trimEnd_list_idemp l : trimEnd_list (trimEnd_list l) = trimEnd_list l.
Proof. unfold trimEnd_list. by rewrite rev_involutive, trimStart_list_idemp. Qed.

Lemma trim_list_idemp l :
  trimEnd_list (trimStart_list (trimEnd_list (trimStart_list l)))
  = trimEnd_list (trimStart_list l).
Proof.
  pose proof (trimStart_list_head l) as H.
  destruct (trimStart_list l) as [|a m] eqn:E; [done|].
  rewrite (trimEnd_list_cons a m H), (trimStart_list_fixed a _ H).
  rewrite <- (trimEnd_list_cons a m H). apply trimEnd_list_idemp.
Qed.

Lemma trimStart_list_lower l :
  trimStart_list (map lower_ascii l) = map lower_ascii (trimStart_list l).
Proof.
  induction l as [|a l IH]; simpl; [done|].
  rewrite is_space_lower. by destruct (is_space a).
Qed.

Lemma trimEnd_list_lower l :
  trimEnd_list (map lower_ascii l) = map lower_ascii (trimEnd_list l).
Proof. unfold trimEnd_list. by rewrite <- map_rev, trimStart_list_lower, map_rev. Qed.

Lemma trim_idemp s : trim (trim s) = trim s.
Proof.
  unfold trim. by rewrite list_ascii_of_string_of_list_ascii, trim_list_idemp.
Qed.

Lemma trim_toLowerCase s : trim (toLowerCase s) = toLowerCase (trim s).
Proof.
  unfold trim, toLowerCase.
  by rewrite !list_ascii_of_string_of_list_ascii, trimStart_list_lower, trimEnd_list_lower.
Qed.

Lemma toLowerCase_idemp s : toLowerCase (toLowerCase s) = toLowerCase s.
Proof.
  unfold toLowerCase. rewrite list_ascii_of_string_of_list_ascii, map_map.
  f_equal. apply map_ext. intros a. apply lower_ascii_idemp.
Qed.

Lemma normalize_one_makes_well_formed t x :
  well_shaped x = true → well_formed (normalize_one t x) = true.
Proof.
  unfold well_shaped, well_formed, normal_content. rewrite !andb_true_iff.
  intros [[_ Ht] Hc]. simpl.
  destruct (field text x) as [| | | |s|]; try done.
  destruct (field category x) as [| | | |c|]; try done.
  cbn [trim_val trim_lower_val is_string].
  rewrite trim_toLowerCase, toLowerCase_idemp, !trim_idemp, !bool_decide_eq_true_2 by done.
  repeat split. unfold js_or. by destruct (truthy (field id x)) eqn:E.
Qed.

Lemma normalizeImported_makes_well_formed env raw :
  Forall (λ q, well_formed q = true) (normalizeImported env raw).
Proof.
  apply Forall_forall. intros q [i Hi]%list_elem_of_lookup.
  unfold normalizeImported in Hi. rewrite list_lookup_imap in Hi.
  destruct (filter _ raw !! i) as [x|] eqn:Hx; [|done].
  simpl in Hi. injection Hi as <-. apply normalize_one_makes_well_formed.
  apply list_elem_of_lookup_2 in Hx. by apply list_elem_of_filter in Hx as [? _].
Qed.

Lemma quote_of_post_well_formed now p : well_formed (quote_of_post now p) = true.
Proof.
  unfold well_formed, normal_content, quote_of_post, js_or. simpl.
  set (title := trim _).
  destruct (negb (title =? "")%string) eqn:E; simpl; [|done].
  subst title. by rewrite trim_idemp, bool_decide_eq_true_2.
Qed.

Lemma import_foldl_well_formed normalized : ∀ acc,
  Forall (λ q, well_formed q = true) (i_quotes acc) →
  Forall (λ q, well_formed q = true) normalized →
  Forall (λ q, well_formed q = true) (i_quotes (foldl import_step acc normalized)).
Proof.
  induction normalized as [|q l IH]; intros acc Hacc Hn; simpl; [done|].
  apply Forall_cons in Hn as [Hq Hl]. apply IH; [|done].
  destruct (import_step_cases acc q) as [[-> _]|[-> _]]; simpl; [done|].
  apply Forall_app. split; [done|]. by apply Forall_singleton.
Qed.

Lemma sync_foldl_well_formed serverQuotes : ∀ acc,
  Forall (λ q, well_formed q = true) (s_quotes acc) →
  Forall (λ q, well_formed q = true) serverQuotes →
  Forall (λ q, well_formed q = true) (s_quotes (foldl sync_step acc serverQuotes)).
Proof.
  induction serverQuotes as [|s l IH]; intros acc Hacc Hn; simpl; [done|].
  apply Forall_cons in Hn as [Hs Hl]. apply IH; [|done].
  destruct (sync_step_quotes acc s) as [[-> _]|[_ [->|(idx & old & _ & _ & ->)]]].
  - apply Forall_app. split; [done|]. by apply Forall_singleton.
  - done.
  - by apply Forall_insert.
Qed.

(** The records a successful fetch returns are the posts of the feed, each
    mapped by [quote_of_post]. *)
Lemma fetchServerQuotes_posts r now serverQuotes q :
  fetchServerQuotes r now = inr serverQuotes → q ∈ serverQuotes →
  ∃ p, q = quote_of_post now p.
Proof.
  destruct r as [m|[] status [m|[v|o|posts]]]; simpl; try done.
  destruct (mapM (quote_of_item now) posts) as [sq|] eqn:E; [|done].
  intros [= <-] [i Hi]%list_elem_of_lookup.
  apply mapM_Some in E.
  destruct (Forall2_lookup_r _ _ _ _ _ E Hi) as ([|p] & _ & Hp); [done|].
  exists p. simpl in Hp. congruence.
Qed.

Lemma fetchServerQuotes_well_formed r now serverQuotes :
  fetchServerQuotes r now = inr serverQuotes →
  Forall (λ q, well_formed q = true) serverQuotes.
Proof.
  intros E. apply Forall_forall. intros q Hq.
  destruct (fetchServerQuotes_posts r now serverQuotes q E Hq) as [p ->].
  apply quote_of_post_well_formed.
Qed.

Lemma seeds_well_formed now : Forall (λ q, well_formed q = true) (SEED_QUOTES now).
Proof. unfold SEED_QUOTES. repeat constructor. Qed.

(** X26. Every operation keeps the records well-formed: along any run of
    adds, imports and syncs from a collection of well-formed records (truthy
    id, trimmed text, trimmed lower-cased category), every record of the
    collection is well-formed. *)
Lemma run_well_formed (ops : list operation) : ∀ st,
  Forall (λ q, well_formed q = true) (quotes st) →
  Forall (λ q, well_formed q = true) (quotes (run ops st)).
Proof.
  induction ops as [|o ops IH]; intros st Hwf; simpl; [done|].
  apply IH. destruct o as [tv cv t sel|file env|r nf sel ns]; simpl.
  - rewrite addQuote_quotes_eq. destruct (_ || _); [done|].
    apply Forall_app. split; [done|].
    apply Forall_singleton. unfold well_formed, normal_content.
    cbn [id text category trim_val trim_lower_val is_string local_id truthy].
    rewrite trim_toLowerCase, toLowerCase_idemp, !trim_idemp, !bool_decide_eq_true_2 by done.
    done.
  - destruct (importFromJsonFile_quotes_cases file env st) as [->|[raw ->]]; [done|].
    apply import_foldl_well_formed; [done|]. apply normalizeImported_makes_well_formed.
  - rewrite syncWithServer_quotes.
    destruct (fetchServerQuotes r nf) as [m|sq] eqn:E; [done|].
    apply sync_foldl_well_formed; [done|]. by eapply fetchServerQuotes_well_formed.
Qed.

(** * The properties at concrete inputs *)

Local Ltac by_computation := apply (bool_decide_unpack _); vm_compute; exact I.

(** An add, an import and a sync on the seeded store. *)
Lemma identity_uniqueness_witness :
  let ops := [OpAdd " Carpe diem " "Latin" tick_a "all";
              OpImport (Some sample_file) env_a;
              OpSync sample_response 5 "all" 6] in
  NoDup (ids (quotes seeded_state)) ∧ adds_fresh ops seeded_state ∧
  NoDup (ids (quotes (run ops seeded_state))).
Proof.
  intros ops.
  assert (NoDup (ids (quotes seeded_state))) as Hnd by by_computation.
  assert (adds_fresh ops seeded_state) as Hfresh.
  { simpl. repeat split. by_computation. }
  split; [exact Hnd|]. split; [exact Hfresh|].
  exact (identity_uniqueness ops seeded_state Hnd Hfresh).
Defined.

(** C1 fails as stated: two adds that read the same clock and draw the same
    random suffix leave two records with one id. *)
Lemma identity_uniqueness_counterexample :
  let ops := [OpAdd "Hi" "x" tick_a "all"; OpAdd "Ho" "y" tick_a "all"] in
  NoDup (ids (quotes blank_state)) ∧
  ¬ NoDup (ids (quotes (run ops blank_state))).
Proof.
  split; [by_computation|].
  assert (ids (quotes (run [OpAdd "Hi" "x" tick_a "all"; OpAdd "Ho" "y" tick_a "all"]
                           blank_state))
          = [VStr "local-1700000000000-k3x9q"; VStr "local-1700000000000-k3x9q"]) as ->
    by (by vm_compute).
  intros [Hin _]%NoDup_cons. apply Hin. by left.
Qed.


Lemma sync_never_removes_witness :
  [local_A] !! 0 = Some local_A ∧ (id local_A ∉ ids [server_2]) ∧
  length (mergeServerQuotes [local_A] [server_2]).1.1
  = length [local_A] + (mergeServerQuotes [local_A] [server_2]).1.2 ∧
  (mergeServerQuotes [local_A] [server_2]).1.1 !! 0 = Some local_A.
Proof.
  assert (id local_A ∉ ids [server_2]) as Hq by by_computation.
  split; [reflexivity|]. split; [exact Hq|].
  destruct (sync_never_removes [local_A] [server_2]) as [Hlen Hframe].
  split; [exact Hlen|]. exact (Hframe 0 local_A eq_refl Hq).
Defined.

Lemma sync_idempotent_witness :
  NoDup (ids [local_A]) ∧ consistent [server_B; server_2] = true ∧
  mergeServerQuotes [server_B; server_2] [server_B; server_2]
  = ([server_B; server_2], 0, 0).
Proof.
  assert (NoDup (ids [local_A])) as Hnd by by_computation.
  split; [exact Hnd|]. split; [reflexivity|].
  exact (sync_idempotent [local_A] [server_B; server_2] Hnd eq_refl).
Defined.

(** C5 fails as stated: when the incoming sequence holds the same id twice
    with different texts, the second sync replaces again. *)
Lemma sync_idempotent_counterexample :
  let incoming := [server_B; server_A] in
  let '(merged, _, _) := mergeServerQuotes [] incoming in
  NoDup (ids ([] : list Quote)) ∧
  mergeServerQuotes merged incoming = (merged, 0, 2) ∧
  mergeServerQuotes merged incoming ≠ (merged, 0, 0).
Proof. split; [apply NoDup_nil_2|]. split; [by vm_compute|]. by vm_compute. Qed.

Lemma import_content_dedup_witness :
  let existing := SEED_QUOTES (λ _, 0%Z) in
  let x := mkQuote (VStr "seed-3") (VStr "What we think, we become.") (VStr "mindset")
                   (VStr "seed") (VNum 1) (VNum 0) in
  let q := mkQuote (VStr "import-1700000000000-k3x9q") (VStr "What we think, we become.")
                   (VStr "mindset") (VStr "import") (VNum 1) (VNum 1700000000000) in
  x ∈ existing ∧ text x = text q ∧ category x = category q ∧
  (id q ∉ ids existing) ∧
  importMerge existing [q] = (existing, 0, 1).
Proof.
  intros existing x q.
  assert (x ∈ existing) as Hx by by_computation.
  assert (id q ∉ ids existing) as Hq by by_computation.
  split; [exact Hx|]. split; [reflexivity|]. split; [reflexivity|]. split; [exact Hq|].
  exact (import_content_dedup existing [] q x Hx eq_refl eq_refl).
Defined.



(** What a sync with nothing new does to the store: no write of the
    collection, one write of the sync time. *)
Example sync_without_changes :
  effects (syncWithServer (HttpResponse true 200 (Parses (JArray []))) 5 "all" 6)
          seeded_state
  = [SetStatus "Synced with server. No changes." "info";
     LocalStorage_setItem STORAGE.LAST_SYNC (Parses (JScalar (VNum 6)))].
Proof. by vm_compute. Qed.

Lemma export_import_roundtrip_witness :
  quotes blank_state = [] ∧
  Forall (λ q, well_formed q = true) (quotes seeded_state) ∧
  Forall (λ q, json_val (id q) = id q) (quotes seeded_state) ∧
  NoDup (ids (quotes seeded_state)) ∧
  NoDup (content <$> quotes seeded_state) ∧
  triple <$> quotes (importFromJsonFile (exported_file seeded_state) env_a blank_state)
  = triple <$> quotes seeded_state.
Proof.
  assert (Forall (λ q, well_formed q = true) (quotes seeded_state)) as Hwf
    by by_computation.
  assert (Forall (λ q, json_val (id q) = id q) (quotes seeded_state)) as Hfin
    by by_computation.
  assert (NoDup (ids (quotes seeded_state))) as Hids by by_computation.
  assert (NoDup (content <$> quotes seeded_state)) as Hcont by by_computation.
  split; [reflexivity|]. split; [exact Hwf|]. split; [exact Hfin|].
  split; [exact Hids|]. split; [exact Hcont|].
  exact (export_import_roundtrip seeded_state blank_state env_a eq_refl Hwf Hfin
           Hids Hcont).
Defined.

(** C8 fails as stated: the same text and category added twice through the
    form gives two records with distinct ids; the exported file, imported
    into an empty collection, gives back only the first of them. *)
Lemma export_import_roundtrip_counterexample :
  let st := run [OpAdd "Hi" "x" tick_a "all"; OpAdd "Hi" "x" tick_b "all"] blank_state in
  let back := quotes (importFromJsonFile (exported_file st) env_a blank_state) in
  NoDup (ids (quotes st)) ∧
  ¬ (∀ x, x ∈ triple <$> quotes st ↔ x ∈ triple <$> back).
Proof.
  split; [by_computation|]. intros H.
  pose (x := (VStr "local-1700000000321-p0m2z", VStr "Hi", VStr "x")).
  assert (x ∈ triple <$> quotes (run [OpAdd "Hi" "x" tick_a "all";
                                      OpAdd "Hi" "x" tick_b "all"] blank_state)) as Hin
    by by_computation.
  apply H in Hin. revert Hin. by_computation.
Qed.

(** An id that overflowed is not restored: the collection holds [Infinity],
    the exported file holds [null] in its place, and the re-import makes a
    new id. *)
Example overflowing_id_not_restored :
  let st := importFromJsonFile (Some (Parses (JArray [IObject overflowing]))) env_a
              blank_state in
  let back := quotes (importFromJsonFile (exported_file st) env_a blank_state) in
  id <$> quotes st = [VInfinity false] ∧
  exported_file st
  = Some (Parses (JArray [IObject (mkQuote VNull (VStr "Less is more.") (VStr "design")
                                           (VStr "import") (VNum 1)
                                           (VNum 1700000000000))])) ∧
  id <$> back = [VStr "import-1700000000000-k3x9q"].
Proof. by vm_compute. Qed.

(** A sync that adds records to a collection holding a category that is not
    a string: the collection is saved, the rebuild of the drop-down raises,
    the error is reported and the sync time is not recorded. *)
Example sync_rebuild_raises :
  let st' := syncWithServer sample_response 5 "all" 6 flagged_state in
  quotes flagged_state = [flagged] ∧
  length (quotes st') = 3 ∧
  effects (syncWithServer sample_response 5 "all" 6) flagged_state
  = [LocalStorage_setItem STORAGE.QUOTES (JSON_stringify (quotes st'));
     PopulateCategories;
     SetStatus ("Sync error: " +:+ trim_is_not_a_function) "warn"] ∧
  localStorage st' !! STORAGE.LAST_SYNC = None.
Proof. by vm_compute. Qed.

(** The same collection on import: saved, then the error is reported and no
    quote is shown. *)
Example import_rebuild_raises :
  effects (importFromJsonFile (Some (Parses (JArray []))) env_a) flagged_state
  = [LocalStorage_setItem STORAGE.QUOTES (JSON_stringify [flagged]);
     PopulateCategories;
     SetStatus ("Import failed: " +:+ trim_is_not_a_function) "warn"].
Proof. by vm_compute. Qed.

(** * Further properties of the store *)

(** ** Nothing is ever removed *)

Lemma sync_step_ids acc s k :
  k ∈ ids (s_quotes acc) → k ∈ ids (s_quotes (sync_step acc s)).
Proof.
  intros Hk.
  destruct (sync_step_quotes acc s) as [[-> _]|[_ [->|(idx & old & Hidx & E & ->)]]].
  - unfold ids. rewrite fmap_app. apply elem_of_app. by left.
  - done.
  - by erewrite ids_insert_same.
Qed.

Lemma sync_foldl_ids serverQuotes : ∀ acc k,
  k ∈ ids (s_quotes acc) → k ∈ ids (s_quotes (foldl sync_step acc serverQuotes)).
Proof.
  induction serverQuotes as [|s l IH]; intros acc k Hk; simpl; [done|].
  by apply IH, sync_step_ids.
Qed.

Lemma sync_foldl_grows serverQuotes acc :
  length (s_quotes acc) ≤ length (s_quotes (foldl sync_step acc serverQuotes)).
Proof.
  revert acc. induction serverQuotes as [|s l IH]; intros acc; simpl; [done|].
  etrans; [|apply IH].
  destruct (sync_step_quotes acc s) as [[-> _]|[_ [->|(idx & old & _ & _ & ->)]]];
    rewrite ?length_app, ?length_insert; simpl; lia.
Qed.

Lemma apply_op_keeps o st :
  length (quotes st) ≤ length (quotes (apply_op st o)) ∧
  ∀ k, k ∈ ids (quotes st) → k ∈ ids (quotes (apply_op st o)).
Proof.
  destruct o as [tv cv t sel|file env|r nf sel ns]; simpl.
  - destruct (addQuote_quotes tv cv t sel st) as [->|(q & -> & _)]; [done|].
    rewrite length_app. split; [lia|]. intros k Hk.
    unfold ids. rewrite fmap_app. apply elem_of_app. by left.
  - destruct (importFromJsonFile_quotes_cases file env st) as [->|[raw ->]]; [done|].
    destruct (import_foldl_appends (normalizeImported env raw) (import_init (quotes st)))
      as (app & Hq & _).
    unfold import_loop. rewrite Hq. simpl. rewrite length_app. split; [lia|].
    intros k Hk. unfold ids. rewrite fmap_app. apply elem_of_app. by left.
  - rewrite syncWithServer_quotes.
    destruct (fetchServerQuotes r nf) as [m|sq]; [done|]. split.
    + apply (sync_foldl_grows sq (sync_init (quotes st))).
    + intros k Hk. by apply sync_foldl_ids.
Qed.

Lemma run_grows ops : ∀ st, length (quotes st) ≤ length (quotes (run ops st)).
Proof.
  induction ops as [|o ops IH]; intros st; simpl; [done|].
  etrans; [apply (apply_op_keeps o st)|apply IH].
Qed.

(** X1. No operation removes a record or an id: along any run of adds,
    imports and syncs the collection never gets shorter, and every id it
    holds it keeps. *)
Theorem run_never_removes (ops : list operation) (st : state) :
  length (quotes st) ≤ length (quotes (run ops st)) ∧
  ∀ k, k ∈ ids (quotes st) → k ∈ ids (quotes (run ops st)).
Proof.
  revert st. induction ops as [|o ops IH]; intros st; simpl; [done|].
  destruct (apply_op_keeps o st) as [Hlen Hids].
  destruct (IH (apply_op st o)) as [Hlen' Hids']. split; [lia|].
  intros k Hk. by apply Hids', Hids.
Qed.

(** ** A sync that counts nothing changed nothing *)

Lemma sync_step_counts acc s :
  sync_step acc s = acc
  ∨ (s_added (sync_step acc s) = S (s_added acc)
     ∧ s_replaced (sync_step acc s) = s_replaced acc)
  ∨ (s_added (sync_step acc s) = s_added acc
     ∧ s_replaced (sync_step acc s) = S (s_replaced acc)).
Proof.
  unfold sync_step. destruct (s_localById acc !! id s) as [local|]; [|right; left; done].
  destruct (differs local s); [right; right; done|by left].
Qed.

Lemma sync_foldl_counts_mono serverQuotes : ∀ acc,
  s_added acc ≤ s_added (foldl sync_step acc serverQuotes) ∧
  s_replaced acc ≤ s_replaced (foldl sync_step acc serverQuotes).
Proof.
  induction serverQuotes as [|s l IH]; intros acc; simpl; [done|].
  destruct (IH (sync_step acc s)) as [Ha Hr].
  destruct (sync_step_counts acc s) as [E|[[Ea Er]|[Ea Er]]];
    [rewrite E in *; done| |]; lia.
Qed.

Lemma sync_foldl_unchanged serverQuotes : ∀ acc,
  s_added (foldl sync_step acc serverQuotes) = s_added acc →
  s_replaced (foldl sync_step acc serverQuotes) = s_replaced acc →
  foldl sync_step acc serverQuotes = acc.
Proof.
  induction serverQuotes as [|s l IH]; intros acc Ha Hr; simpl in *; [done|].
  destruct (sync_foldl_counts_mono l (sync_step acc s)) as [Ha' Hr'].
  destruct (sync_step_counts acc s) as [E|[[Ea Er]|[Ea Er]]]; [|lia|lia].
  rewrite E in *. by apply IH.
Qed.

(** X2. When [mergeServerQuotes] returns zero for both counts, the
    collection is exactly what it was: the test [added || replaced] in
    [syncWithServer] misses no change. *)
Theorem sync_zero_counts_unchanged (existing serverQuotes : list Quote) :
  let '(merged, added, replaced) := mergeServerQuotes existing serverQuotes in
  added = 0 → replaced = 0 → merged = existing.
Proof.
  unfold mergeServerQuotes, sync_loop. intros Ha Hr.
  by rewrite (sync_foldl_unchanged serverQuotes (sync_init existing)).
Qed.

(** ** The durable store mirrors the collection *)

Lemma lookup_quotes_after_sync_time (m : gmap string (text_of Quote)) v :
  <[STORAGE.LAST_SYNC := v]> m !! STORAGE.QUOTES = m !! STORAGE.QUOTES.
Proof. by apply lookup_insert_ne. Qed.

Lemma saveQuotes_stored st :
  localStorage (saveQuotes st) !! STORAGE.QUOTES = Some (JSON_stringify (quotes st)).
Proof. simpl. apply lookup_insert_eq. Qed.

Lemma loadInitialData_mirrors seed st : mirrors (loadInitialData seed st).
Proof.
  unfold loadInitialData, mirrors.
  destruct (readLocalQuotes st) as [[|q l]|] eqn:E; simpl;
    try (right; apply lookup_insert_eq).
  left. unfold readLocalQuotes in E.
  by destruct (localStorage st !! STORAGE.QUOTES) as [[m|[v|o|arr]]|]; simplify_eq.
Qed.

(** An operation leaves the collection and its stored text alone, or ends
    with the collection saved. *)
Lemma apply_op_store o st :
  (quotes (apply_op st o) = quotes st ∧
   localStorage (apply_op st o) !! STORAGE.QUOTES = localStorage st !! STORAGE.QUOTES)
  ∨ saved (apply_op st o).
Proof.
  unfold saved.
  destruct o as [tv cv t sel|file env|r nf sel ns]; simpl.
  - unfold addQuote. destruct (_ || _); [by left|]. right. simpl.
    destruct (populateCategories_raises _); [|destruct (_ || _)]; simpl;
      apply lookup_insert_eq.
  - destruct file as [[m|[v|o|raw]]|]; try by left. right. simpl.
    destruct (populateCategories_raises _); simpl; apply lookup_insert_eq.
  - unfold syncWithServer. destruct (fetchServerQuotes r nf) as [m|sq]; [by left|].
    pose proof (sync_foldl_unchanged sq (sync_init (quotes st))) as Hz.
    fold (sync_loop (quotes st) sq) in Hz.
    unfold mergeServerQuotes in *. simpl.
    destruct (s_added (sync_loop (quotes st) sq)) as [|a] eqn:Ea;
      destruct (s_replaced (sync_loop (quotes st) sq)) as [|b] eqn:Eb; simpl.
    { left. rewrite lookup_quotes_after_sync_time, Hz; done. }
    all: right; destruct (populateCategories_raises _); [|destruct (_ || _)]; simpl;
      rewrite ?lookup_quotes_after_sync_time; apply lookup_insert_eq.
Qed.

Lemma run_store ops : ∀ st,
  (quotes (run ops st) = quotes st ∧
   localStorage (run ops st) !! STORAGE.QUOTES = localStorage st !! STORAGE.QUOTES)
  ∨ saved (run ops st).
Proof.
  induction ops as [|o ops IH]; intros st; simpl; [by left|].
  destruct (IH (apply_op st o)) as [[Hq Hs]|Hs]; [|by right].
  destruct (apply_op_store o st) as [[Hq' Hs']|Hs'].
  - left. split; congruence.
  - right. unfold saved in *. congruence.
Qed.

Lemma run_mirrors ops st : mirrors st → mirrors (run ops st).
Proof.
  intros Hp. destruct (run_store ops st) as [[Hq Hs]|Hs]; [|by right].
  unfold mirrors, saved in *. rewrite Hq, Hs. done.
Qed.

Lemma finite_records_json (qs : list Quote) :
  Forall finite_record qs → json_record <$> qs = qs.
Proof.
  induction qs as [|q l IH]; intros H; [done|].
  apply Forall_cons in H as [Hq Hl]. rewrite fmap_cons, Hq. f_equal. by apply IH.
Qed.

Lemma mirrors_read st :
  mirrors st →
  readLocalQuotes st = Some (quotes st)
  ∨ readLocalQuotes st = Some (json_record <$> quotes st).
Proof. unfold readLocalQuotes. intros [->| ->]; [by left|by right]. Qed.

(** X3. After start-up, and after any run of adds, imports and syncs that
    follows it, the durable store mirrors the collection in memory: it holds
    what [JSON.stringify] writes for the collection, or, while no operation
    has saved, the text of the collection that start-up read from it.  So
    reading the store gives the collection as it is, or as [JSON.stringify]
    writes it, with every non-finite number replaced by [null]; when the
    collection holds no non-finite number, reading the store gives back
    exactly the collection: no change is left unsaved. *)
Theorem store_mirrors_collection (seed : list Quote) (st0 : state)
    (ops : list operation) :
  let st1 := loadInitialData seed st0 in
  let st := run ops st1 in
  (localStorage st !! STORAGE.QUOTES = Some (JSON_stringify (quotes st))
   ∨ (localStorage st !! STORAGE.QUOTES = Some (Parses (JArray (quotes st))) ∧
      quotes st = quotes st1 ∧ readLocalQuotes st0 = Some (quotes st1))) ∧
  (readLocalQuotes st = Some (quotes st)
   ∨ readLocalQuotes st = Some (json_record <$> quotes st)) ∧
  (Forall finite_record (quotes st) → readLocalQuotes st = Some (quotes st)).
Proof.
  cbv zeta. set (st1 := loadInitialData seed st0).
  pose proof (run_mirrors ops _ (loadInitialData_mirrors seed st0)) as Hp.
  fold st1 in Hp. apply mirrors_read in Hp. split; [|split; [done|]].
  - destruct (run_store ops st1) as [[Hq Hs]|Hs]; [|by left].
    rewrite Hq, Hs. unfold st1, loadInitialData.
    destruct (readLocalQuotes st0) as [[|q l]|] eqn:E; simpl;
      try (left; apply lookup_insert_eq).
    right. split; [|done]. unfold readLocalQuotes in E.
    by destruct (localStorage st0 !! STORAGE.QUOTES) as [[m|[v|o|arr]]|]; simplify_eq.
  - intros Hfin. rewrite (finite_records_json _ Hfin) in Hp. by destruct Hp.
Qed.

(** X4. Reloading the page restores the collection: start-up run again on
    the state reached by any run after a first start-up reads the stored
    collection back and writes nothing.  The collection it gets is the one
    in memory, or that one as [JSON.stringify] wrote it (a non-finite number,
    held since an import, comes back as [null]); it is exactly the one in
    memory when that holds no non-finite number. *)
Theorem reload_restores_collection (now now' : nat → Z) (st0 : state)
    (ops : list operation) :
  let st := run ops (loadInitialData (SEED_QUOTES now) st0) in
  let st' := loadInitialData (SEED_QUOTES now') st in
  (quotes st' = quotes st ∨ quotes st' = json_record <$> quotes st) ∧
  effects (loadInitialData (SEED_QUOTES now')) st = [] ∧
  (Forall finite_record (quotes st) → quotes st' = quotes st).
Proof.
  simpl. set (st1 := loadInitialData (SEED_QUOTES now) st0).
  set (st := run ops st1).
  pose proof (run_mirrors ops _ (loadInitialData_mirrors (SEED_QUOTES now) st0)) as Hp.
  fold st1 st in Hp. apply mirrors_read in Hp.
  assert (quotes st ≠ []) as Hne.
  { pose proof (run_grows ops st1) as Hlen. fold st in Hlen.
    assert (quotes st1 ≠ []) as Hne0.
    { unfold st1, loadInitialData. by destruct (readLocalQuotes st0) as [[|q l]|]. }
    intros E. rewrite E in Hlen. simpl in Hlen.
    destruct (quotes st1); [done|simpl in Hlen; lia]. }
  assert (∀ arr, readLocalQuotes st = Some arr → arr ≠ [] →
            quotes (loadInitialData (SEED_QUOTES now') st) = arr ∧
            effects (loadInitialData (SEED_QUOTES now')) st = []) as Hload.
  { intros arr E Harr. unfold effects, loadInitialData. rewrite E.
    destruct arr; [done|]. simpl. by rewrite drop_all. }
  assert (json_record <$> quotes st ≠ []) as Hne' by by destruct (quotes st).
  destruct Hp as [E|E].
  - destruct (Hload _ E Hne) as [Hq He]. split_and!; auto.
  - destruct (Hload _ E Hne') as [Hq He]. split_and!; auto.
    intros Hfin. by rewrite Hq, finite_records_json.
Qed.


(** ** Failures change nothing *)


(** X6. An import whose file is not the text of an array (no file chosen,
    text that does not parse, a value that is not an array) leaves the
    collection and the durable store as they were: nothing is merged in part.
    With no file chosen nothing happens at all; otherwise a warning status is
    set. *)
Theorem import_failure_changes_nothing (file : option (text_of item))
    (env : nat → tick) (st : state) :
  is_array_file file = false →
  let st' := importFromJsonFile file env st in
  quotes st' = quotes st ∧ localStorage st' = localStorage st ∧
  match file with
  | None => st' = st
  | Some _ => ∃ message, effects (importFromJsonFile file env) st
                         = [SetStatus ("Import failed: " +:+ message) "warn"]
  end.
Proof.
  intros Hf. simpl.
  destruct file as [[m|[v|o|raw]]|]; try done; simpl; repeat split;
    eexists; by apply effects_app.
Qed.

(** ** Adding from the form *)

Lemma toLowerCase_empty s : toLowerCase s = "" ↔ s = "".
Proof.
  split; [|by intros ->]. unfold toLowerCase.
  destruct s as [|a s]; [done|]. by simpl.
Qed.

(** X7. [addQuote] stores no blank record.  When the text or the category is
    empty after trimming, the collection and the durable store are left as
    they were and a warning is shown; otherwise exactly one record is
    appended, with the trimmed text, the trimmed lower-cased category, both
    non-empty and written by [JSON.stringify] as it is, and the collection
    is saved: the durable store reads as the collection that
    [JSON.stringify] wrote. *)
Theorem addQuote_outcome (textValue catValue : string) (t : tick)
    (selected : string) (st : state) :
  let st' := addQuote textValue catValue t selected st in
  if bool_decide (trim textValue = "" ∨ trim catValue = "")
  then quotes st' = quotes st ∧ localStorage st' = localStorage st ∧
       effects (addQuote textValue catValue t selected) st
       = [SetStatus "Please enter BOTH quote text and category." "warn"]
  else ∃ q, quotes st' = quotes st ++ [q] ∧
            id q = local_id t ∧
            text q = VStr (trim textValue) ∧
            category q = VStr (toLowerCase (trim catValue)) ∧
            quote_invariant q = true ∧
            json_record q = q ∧
            readLocalQuotes st' = Some (json_record <$> quotes st').
Proof.
  simpl. unfold addQuote.
  destruct (trim textValue =? "")%string eqn:Et.
  - apply String.eqb_eq in Et. rewrite bool_decide_eq_true_2 by by left.
    simpl. repeat split. by apply effects_app.
  - apply String.eqb_neq in Et. simpl.
    destruct (toLowerCase (trim catValue) =? "")%string eqn:Ec.
    + apply String.eqb_eq in Ec. apply (proj1 (toLowerCase_empty _)) in Ec.
      rewrite bool_decide_eq_true_2 by by right.
      repeat split. by apply effects_app.
    + apply String.eqb_neq in Ec.
      rewrite bool_decide_eq_false_2
        by (intros [?|E]; [done|]; apply Ec; by rewrite E).
      exists (mkQuote (local_id t) (VStr (trim textValue))
                      (VStr (toLowerCase (trim catValue)))
                      (VStr "local") (VNum 1) (VNum (now_updated t))).
      split_and!; try reflexivity.
      * destruct (populateCategories_raises _); [done|]. by destruct (_ || _).
      * unfold quote_invariant. simpl.
        apply andb_true_iff. split; apply negb_true_iff, String.eqb_neq; done.
      * unfold readLocalQuotes.
        destruct (populateCategories_raises _); [|destruct (_ || _)]; simpl;
          by rewrite lookup_insert_eq.
Qed.

(** ** More on the import merge *)

(** X8. Every element of the imported array that passes the shape check is
    counted once, as added or as skipped; the elements the normaliser drops
    are counted in neither. *)
Theorem import_counts_well_shaped (existing : list Quote) (env : nat → tick)
    (raw : list item) :
  let '(merged, added, skipped) := importMerge existing (normalizeImported env raw) in
  added + skipped = length (filter (λ x, well_shaped x = true) raw) ∧
  added + skipped ≤ length raw.
Proof.
  unfold importMerge, import_loop.
  rewrite (import_counts (normalizeImported env raw) (import_init existing)). simpl.
  unfold normalizeImported. rewrite length_imap. split; [done|].
  apply length_filter.
Qed.

Lemma import_step_skip acc q :
  id q ∈ i_seenId acc ∨ same_content_in (i_quotes acc) q = true →
  import_step acc q
  = mkImportAcc (i_quotes acc) (i_seenId acc) (i_added acc) (S (i_skipped acc)).
Proof.
  intros H. unfold import_step.
  destruct H as [H|H]; [by rewrite bool_decide_eq_true_2|by rewrite H, orb_true_r].
Qed.

(** X9. An incoming record whose id is already in the collection is
    skipped, whatever its content: skipped count plus one, collection and
    added count unchanged. *)
Theorem import_id_dedup (existing pre : list Quote) (q x : Quote) :
  x ∈ existing → id x = id q →
  importMerge existing (pre ++ [q])
  = let '(merged, added, skipped) := importMerge existing pre in
    (merged, added, S skipped).
Proof.
  intros Hx E. unfold importMerge, import_loop. rewrite foldl_app. simpl.
  destruct (import_foldl_appends pre (import_init existing)) as (app & Hq & _).
  pose proof (import_foldl_seen pre (import_init existing) eq_refl) as Hseen.
  simpl in Hq. set (acc := foldl import_step (import_init existing) pre) in *.
  rewrite import_step_skip; [done|]. left.
  rewrite Hseen, elem_of_list_to_set, Hq, <- E.
  apply list_elem_of_fmap. exists x. split; [done|]. apply elem_of_app. by left.
Qed.

Lemma same_content_in_app qs more q :
  same_content_in qs q = true → same_content_in (qs ++ more) q = true.
Proof.
  unfold same_content_in. rewrite existsb_app. intros ->. done.
Qed.

(** Once the loop is over, each incoming record is represented in the
    collection, by its id or by its content. *)
Lemma import_foldl_represented normalized : ∀ acc,
  i_seenId acc = list_to_set (ids (i_quotes acc)) →
  ∀ q, q ∈ normalized →
    id q ∈ ids (i_quotes (foldl import_step acc normalized))
    ∨ same_content_in (i_quotes (foldl import_step acc normalized)) q = true.
Proof.
  induction normalized as [|q0 l IH]; intros acc Hseen q Hq; simpl.
  - by apply elem_of_nil in Hq.
  - pose proof (import_foldl_seen [q0] acc Hseen) as Hseen'. simpl in Hseen'.
    apply elem_of_cons in Hq as [->|Hq]; [|by apply IH].
    destruct (import_foldl_appends l (import_step acc q0)) as (app & Happ & _).
    rewrite Happ.
    destruct (import_step_cases acc q0) as [[E [Hid|Hc]]|[E _]]; rewrite E; simpl.
    + left. unfold ids. rewrite fmap_app. apply elem_of_app. left.
      by rewrite Hseen, elem_of_list_to_set in Hid.
    + right. by apply same_content_in_app.
    + left. unfold ids. rewrite !fmap_app. apply elem_of_app. left.
      apply elem_of_app. right. by left.
Qed.

Lemma import_foldl_all_skipped normalized : ∀ acc,
  i_seenId acc = list_to_set (ids (i_quotes acc)) →
  (∀ q, q ∈ normalized →
     id q ∈ ids (i_quotes acc) ∨ same_content_in (i_quotes acc) q = true) →
  foldl import_step acc normalized
  = mkImportAcc (i_quotes acc) (i_seenId acc) (i_added acc)
                (i_skipped acc + length normalized).
Proof.
  induction normalized as [|q l IH]; intros acc Hseen Hall; simpl.
  - rewrite Nat.add_0_r. by destruct acc.
  - rewrite import_step_skip.
    + rewrite IH; simpl; [f_equal; lia|done|].
      intros q' Hq'. apply Hall. by right.
    + destruct (Hall q) as [Hid|Hc]; [by left| |by right].
      left. by rewrite Hseen, elem_of_list_to_set.
Qed.

(** X10. Import is idempotent: merging the same incoming records into the
    result of a first merge adds nothing, skips every one of them and leaves
    the collection as it is. *)
Theorem import_idempotent (existing normalized : list Quote) :
  let '(merged, added, skipped) := importMerge existing normalized in
  importMerge merged normalized = (merged, 0, length normalized).
Proof.
  unfold importMerge.
  pose proof (import_foldl_represented normalized (import_init existing) eq_refl) as Hrep.
  fold (import_loop existing normalized) in Hrep.
  set (merged := i_quotes (import_loop existing normalized)) in *.
  unfold import_loop at 1 2 3.
  by rewrite (import_foldl_all_skipped normalized (import_init merged) eq_refl Hrep).
Qed.

(** X11. Append-if-new: when no two records of the existing collection and
    the incoming sequence taken together share an id or a (text, category)
    pair, every incoming record is appended, in order, and none is
    skipped. *)
Theorem import_all_new (existing normalized : list Quote) :
  NoDup (ids (existing ++ normalized)) →
  NoDup (content <$> (existing ++ normalized)) →
  importMerge existing normalized = (existing ++ normalized, length normalized, 0).
Proof.
  intros Hids Hcont. unfold importMerge, import_loop.
  pose proof (import_foldl_all_new normalized (import_init existing) eq_refl Hids Hcont)
    as Hq.
  destruct (import_foldl_appends normalized (import_init existing)) as (app & Hq' & Ha).
  pose proof (import_counts normalized (import_init existing)) as Hc.
  rewrite Hq in *. simpl in *. apply app_inv_head in Hq'. subst app.
  rewrite Ha in *. do 2 f_equal. lia.
Qed.

(** ** More on the server sync *)

(** X12. After a sync the collection agrees with the feed: with ids
    pairwise distinct before the sync and incoming records that agree on
    text and category whenever they share an id, every incoming record has a
    counterpart in the merged collection with its id, its text and its
    category. *)
Theorem sync_agrees_with_server (existing serverQuotes : list Quote) :
  NoDup (ids existing) → consistent serverQuotes = true →
  ∀ s, s ∈ serverQuotes →
    ∃ q, q ∈ (mergeServerQuotes existing serverQuotes).1.1 ∧
         id q = id s ∧ text q = text s ∧ category q = category s.
Proof.
  intros Hnd Hcons s Hs. simpl.
  apply (sync_foldl_settles serverQuotes (sync_init existing) []); try done.
  - by apply by_id_ok_init.
  - by intros ? ?%elem_of_nil.
Qed.


Lemma fetchServerQuotes_ids r now serverQuotes k :
  fetchServerQuotes r now = inr serverQuotes → k ∈ ids serverQuotes → server_id k.
Proof.
  intros Hf (q & -> & Hq)%list_elem_of_fmap.
  destruct (fetchServerQuotes_posts _ _ _ _ Hf Hq) as [p ->]. by eexists.
Qed.

(** X14. A sync touches server records only: a record whose id is not of
    the form "server-..." (a seed, a record added from the form, an imported
    one under its own id) is found unchanged at its position after
    [syncWithServer], whatever the feed returns. *)
Theorem sync_leaves_local_records (r : response) (now_fetch : Z) (selected : string)
    (now_sync : Z) (st : state) (i : nat) (q : Quote) :
  quotes st !! i = Some q → ¬ server_id (id q) →
  quotes (syncWithServer r now_fetch selected now_sync st) !! i = Some q.
Proof.
  intros Hi Hq. rewrite syncWithServer_quotes.
  destruct (fetchServerQuotes r now_fetch) as [m|sq] eqn:E; [done|].
  apply sync_foldl_frame; [done|].
  intros Hin. apply Hq. by eapply fetchServerQuotes_ids.
Qed.

(** ** More on the normaliser *)

Lemma js_or_truthy a b : truthy b = true → truthy (js_or a b) = true.
Proof. intros Hb. unfold js_or. by destruct (truthy a) eqn:E. Qed.

Lemma js_or_fixed a b : truthy a = true → js_or a b = a.
Proof. intros Ha. unfold js_or. by rewrite Ha. Qed.

Lemma normalize_one_fixed t t' x :
  well_shaped x = true →
  well_shaped (IObject (normalize_one t x)) = true ∧
  normalize_one t' (IObject (normalize_one t x)) = normalize_one t x.
Proof.
  intros Hx. split.
  { apply well_formed_shape. by apply normalize_one_makes_well_formed. }
  unfold well_shaped in Hx. apply andb_true_iff in Hx as [Hx Hc].
  apply andb_true_iff in Hx as [_ Ht].
  unfold normalize_one. cbn [field id text category source version lastUpdated].
  destruct (field text x) as [| | | |s|]; try done.
  destruct (field category x) as [| | | |c|]; try done.
  cbn [trim_val trim_lower_val].
  rewrite trim_toLowerCase, toLowerCase_idemp, !trim_idemp.
  rewrite (js_or_fixed (js_or (field id x) _)) by by apply js_or_truthy.
  rewrite (js_or_fixed (js_or (field source x) _)) by by apply js_or_truthy.
  f_equal.
  - by destruct (is_number (field version x)) eqn:E; [rewrite E|].
  - by destruct (is_number (field lastUpdated x)) eqn:E; [rewrite E|].
Qed.

Lemma normalizeImported_fixed_list (l : list Quote) : ∀ env',
  Forall (λ q, ∃ t x, well_shaped x = true ∧ q = normalize_one t x) l →
  normalizeImported env' (IObject <$> l) = l.
Proof.
  unfold normalizeImported.
  induction l as [|q l IH]; intros env' Hl; [done|].
  apply Forall_cons in Hl as [(t & x & Hx & ->) Hl].
  destruct (normalize_one_fixed t (env' 0) x Hx) as [Hshape Hfix].
  rewrite fmap_cons, filter_cons_True by done.
  rewrite imap_cons, Hfix. f_equal. apply (IH (env' ∘ S) Hl).
Qed.

(** X15. The normaliser is idempotent: normalising its own output again,
    under any readings of clock and random source, gives that output back,
    record for record. *)
Theorem normalizeImported_idempotent (env env' : nat → tick) (raw : list item) :
  normalizeImported env' (IObject <$> normalizeImported env raw)
  = normalizeImported env raw.
Proof.
  apply normalizeImported_fixed_list, Forall_forall.
  intros q [i Hi]%list_elem_of_lookup.
  unfold normalizeImported in Hi. rewrite list_lookup_imap in Hi.
  destruct (filter _ raw !! i) as [x|] eqn:Hx; [|done].
  simpl in Hi. injection Hi as <-. exists (env i), x. split; [|done].
  apply list_elem_of_lookup_2 in Hx. by apply list_elem_of_filter in Hx as [? _].
Qed.

(** ** The variant with a map by id *)

Lemma Map_by_id_dom (qs : list Quote) k :
  is_Some (Map_by_id qs !! k) ↔ k ∈ ids qs.
Proof.
  induction qs as [|q qs IH] using rev_ind.
  - unfold Map_by_id. simpl. rewrite lookup_empty. split; [by intros [? ?]|].
    by intros ?%elem_of_nil.
  - rewrite Map_by_id_snoc. unfold ids. rewrite fmap_app, elem_of_app, lookup_insert_is_Some.
    fold (ids qs). rewrite <- IH. simpl. rewrite list_elem_of_singleton.
    destruct (decide (id q = k)); intuition congruence.
Qed.

Lemma Part001_import_foldl imported : ∀ (acc : import_acc) (acc' : Part001.import_acc),
  Part001.i_quotes acc' = i_quotes acc →
  Part001.i_added acc' = i_added acc →
  Part001.i_skipped acc' = i_skipped acc →
  (∀ k, is_Some (Part001.i_byId acc' !! k) ↔ k ∈ i_seenId acc) →
  let r := foldl import_step acc imported in
  let r' := foldl Part001.import_step acc' imported in
  Part001.i_quotes r' = i_quotes r ∧ Part001.i_added r' = i_added r ∧
  Part001.i_skipped r' = i_skipped r.
Proof.
  induction imported as [|q l IH]; intros acc acc' Hq Ha Hs Hdom; simpl; [done|].
  apply IH; unfold import_step, Part001.import_step;
    rewrite Hq, Ha, Hs;
    destruct (decide (id q ∈ i_seenId acc)) as [Hin|Hout];
    try (rewrite (bool_decide_eq_true_2 (id q ∈ _)), bool_decide_eq_true_2
           by (done || by apply Hdom); done);
    rewrite (bool_decide_eq_false_2 (id q ∈ _)), bool_decide_eq_false_2
      by (done || by rewrite Hdom);
    simpl; destruct (same_content_in (i_quotes acc) q); simpl; try done.
  intros k. rewrite lookup_insert_is_Some, elem_of_union, elem_of_singleton, Hdom.
  destruct (decide (id q = k)); intuition congruence.
Qed.

(** X16. The import loop of the variant that keeps a map by id and tests id
    and content one after the other returns the same collection and the same
    counts as the loop with a set of ids and one combined test. *)
Theorem Part001_importMerge_agrees (existing imported : list Quote) :
  Part001.importMerge existing imported = importMerge existing imported.
Proof.
  unfold Part001.importMerge, importMerge, import_loop.
  destruct (Part001_import_foldl imported (import_init existing)
              (Part001.mkImportAcc existing (Map_by_id existing) 0 0))
    as (-> & -> & ->); try done.
  intros k. simpl. by rewrite Map_by_id_dom, elem_of_list_to_set.
Qed.

Lemma as_object_well_shaped (l : list item) :
  Forall (λ x, well_shaped x = true) l → IObject <$> omap Part001.as_object l = l.
Proof.
  induction l as [|x l IH]; intros Hl; [done|].
  apply Forall_cons in Hl as [Hx Hl].
  destruct x as [v|o].
  - unfold well_shaped in Hx. simpl in Hx. by rewrite andb_false_r in Hx.
  - simpl. f_equal. by apply IH.
Qed.

(** X17. The stricter loader: from a stored array it loads exactly the
    elements that pass the shape check, in their order, and writes nothing;
    when no element passes, it falls back to the seed set and writes it
    back. *)
Theorem Part001_loader_keeps_well_shaped (seed : list Quote) (arr : list item) :
  let '(loaded, written) := Part001.loadInitialData seed (Some (Parses (JArray arr))) in
  if bool_decide (filter (λ x, well_shaped x = true) arr = [])
  then loaded = seed ∧ written = Some (JSON_stringify seed)
  else IObject <$> loaded = filter (λ x, well_shaped x = true) arr ∧ written = None.
Proof.
  unfold Part001.loadInitialData, Part001.readLocalQuotes.
  pose proof (as_object_well_shaped (filter (λ x, well_shaped x = true) arr)) as H.
  destruct (filter (λ x, well_shaped x = true) arr) as [|x l] eqn:E.
  - by rewrite bool_decide_eq_true_2.
  - rewrite bool_decide_eq_false_2 by done.
    assert (Forall (λ x, well_shaped x = true) (x :: l)) as Hall.
    { rewrite <- E. apply Forall_forall. intros y Hy.
      by apply list_elem_of_filter in Hy as [? _]. }
    specialize (H Hall).
    destruct (omap Part001.as_object (x :: l)) as [|q qs] eqn:Eo; [done|].
    by rewrite <- H.
Qed.

(** * Properties of the page *)

Lemma Set_of_foldl (l : list string) : ∀ acc,
  let r := foldl (λ s x, if bool_decide (x ∈ s) then s else s ++ [x]) acc l in
  (∀ x, x ∈ r ↔ x ∈ acc ∨ x ∈ l) ∧ (NoDup acc → NoDup r).
Proof.
  induction l as [|y l IH]; intros acc; simpl.
  - split; [|done]. intros x. rewrite elem_of_nil. tauto.
  - destruct (IH (if bool_decide (y ∈ acc) then acc else acc ++ [y])) as [Hin Hnd].
    split.
    + intros x. rewrite Hin, elem_of_cons.
      destruct (decide (y ∈ acc)) as [Hy|Hy].
      * rewrite bool_decide_eq_true_2 by done. split; [tauto|].
        intros [?|[->|?]]; tauto.
      * rewrite bool_decide_eq_false_2 by done.
        rewrite elem_of_app, list_elem_of_singleton. tauto.
    + intros Hacc. apply Hnd.
      destruct (decide (y ∈ acc)) as [Hy|Hy].
      * by rewrite bool_decide_eq_true_2.
      * rewrite bool_decide_eq_false_2 by done. apply NoDup_app.
        split; [done|]. split; [|apply NoDup_singleton].
        by intros x Hx ->%list_elem_of_singleton.
Qed.

Lemma Set_of_elem (l : list string) x : x ∈ Page.Set_of l ↔ x ∈ l.
Proof.
  destruct (Set_of_foldl l []) as [H _]. unfold Page.Set_of. rewrite H, elem_of_nil. tauto.
Qed.

Lemma Set_of_NoDup (l : list string) : NoDup (Page.Set_of l).
Proof. destruct (Set_of_foldl l []) as [_ H]. apply H, NoDup_nil_2. Qed.

Lemma pool_elem selected qs q :
  q ∈ Page.pool selected qs ↔
  q ∈ qs ∧ (selected = "all" ∨ category q = VStr selected).
Proof.
  unfold Page.pool. destruct (selected =? "all")%string eqn:E.
  - apply String.eqb_eq in E. tauto.
  - apply String.eqb_neq in E. rewrite list_elem_of_filter. tauto.
Qed.

Lemma category_label_trimmed q c :
  is_string (category q) && bool_decide (trim_val (category q) = category q) = true →
  Page.category_label q = Some c → c ≠ "" → category q = VStr c.
Proof.
  intros [Hs Ht%bool_decide_eq_true]%andb_true_iff.
  unfold Page.category_label, js_or.
  destruct (category q) as [| | | |s|]; try done. simpl in *.
  injection Ht as Ht.
  destruct (s =? "")%string eqn:E; simpl.
  - apply String.eqb_eq in E. subst s. by intros [= <-].
  - rewrite Ht. by intros [= <-].
Qed.

Section page_properties.

Variable sort : list string → list string.
Variable draw : nat → nat.
Hypothesis sort_permutes : ∀ l, sort l ≡ₚ l.
Hypothesis draw_in_range : ∀ n, 0 < n → draw n < n.

Lemma uniqCategories_spec qs cats :
  Page.uniqCategories sort qs = Some cats →
  NoDup cats ∧
  ∀ c, c ∈ cats ↔ c ≠ "" ∧ ∃ q, q ∈ qs ∧ Page.category_label q = Some c.
Proof.
  unfold Page.uniqCategories.
  destruct (mapM Page.category_label qs) as [labels|] eqn:E; [|done].
  simpl. intros [= <-]. split.
  - rewrite sort_permutes. apply Set_of_NoDup.
  - intros c. rewrite sort_permutes, Set_of_elem, list_elem_of_filter.
    apply mapM_Some in E. split.
    + intros [Hc Hin]. split; [done|].
      apply list_elem_of_lookup in Hin as [i Hi].
      destruct (Forall2_lookup_r _ _ _ _ _ E Hi) as (q & Hq & Hlab).
      eauto using list_elem_of_lookup_2.
    + intros [Hc (q & [i Hi]%list_elem_of_lookup & Hlab)]. split; [done|].
      destruct (Forall2_lookup_l _ _ _ _ _ E Hi) as (c' & Hc' & Hlab').
      assert (c' = c) as -> by congruence.
      eauto using list_elem_of_lookup_2.
Qed.

Lemma label_raises_spec q :
  label_raises q = false ↔ is_Some (Page.category_label q).
Proof.
  unfold label_raises, Page.category_label, js_or.
  destruct (category q) as [| |b|n|s|b]; simpl; try destruct b; try destruct s;
    try destruct (n =? 0)%Z eqn:E; simpl; try rewrite E;
    split; try done; try (by intros [? [=]]); by eexists.
Qed.

Lemma populateCategories_raises_mapM (qs : list Quote) :
  populateCategories_raises qs = false ↔ is_Some (mapM Page.category_label qs).
Proof.
  rewrite mapM_is_Some. unfold populateCategories_raises.
  induction qs as [|q l IH]; simpl; [by split|].
  rewrite Forall_cons, orb_false_iff, label_raises_spec, IH. done.
Qed.

(** The rebuild of the drop-down raises exactly when some record holds a
    truthy category that is not a string. *)
Lemma populateCategories_raises_spec (qs : list Quote) (p : page) :
  populateCategories_raises qs = true ↔ Page.populateCategories sort qs p = None.
Proof.
  pose proof (populateCategories_raises_mapM qs) as H.
  unfold Page.populateCategories, Page.uniqCategories.
  destruct (mapM Page.category_label qs) as [labels|]; simpl.
  - rewrite (proj2 H) by by eexists. done.
  - destruct (populateCategories_raises qs); [done|].
    by destruct (proj1 H eq_refl).
Qed.

Lemma uniqCategories_total qs :
  Forall (λ q, is_Some (Page.category_label q)) qs →
  is_Some (Page.uniqCategories sort qs).
Proof.
  intros Hall. unfold Page.uniqCategories.
  destruct (proj2 (mapM_is_Some Page.category_label qs) Hall) as [labels ->].
  by eexists.
Qed.

Lemma populateCategories_spec qs p p' :
  Page.populateCategories sort qs p = Some p' →
  ∃ cats previous,
    Page.uniqCategories sort qs = Some cats ∧
    previous ≠ "" ∧
    (∀ c, lastCategory p = Some c → c ≠ "" → previous = c) ∧
    p' = Page.set_lastCategory
           (if bool_decide (previous ∈ "all" :: cats) then previous else "all")
           (Page.set_select
              (if bool_decide (previous ∈ "all" :: cats) then previous else "all")
              ("all" :: cats) p).
Proof.
  unfold Page.populateCategories.
  destruct (Page.uniqCategories sort qs) as [cats|]; [|done]. simpl.
  intros [= <-]. exists cats. eexists. split; [done|].
  split; [|split; [|reflexivity]].
  - destruct (lastCategory p) as [[|a c]|]; try done;
      by destruct (select_value p =? "")%string eqn:E; [|apply String.eqb_neq in E].
  - intros c -> Hc. by destruct c.
Qed.

Lemma populateCategories_value qs p p' :
  Page.populateCategories sort qs p = Some p' →
  select_value p' ∈ select_options p' ∧ select_value p' ≠ "" ∧
  lastCategory p' = Some (select_value p') ∧
  (select_value p' = "all"
   ∨ ∃ q, q ∈ qs ∧ Page.category_label q = Some (select_value p')).
Proof.
  intros (cats & previous & Hcats & Hne & _ & ->)%populateCategories_spec.
  apply uniqCategories_spec in Hcats as [_ Hcats]. simpl.
  destruct (decide (previous ∈ "all" :: cats)) as [Hin|Hout].
  - rewrite bool_decide_eq_true_2 by done. split_and!; try done.
    apply elem_of_cons in Hin as [->|Hin]; [by left|].
    right. by apply Hcats.
  - rewrite bool_decide_eq_false_2 by done. split_and!; try done; by left.
Qed.

(** X18. [populateCategories] leaves the drop-down on a valid choice.  When
    every category is a string or empty, it returns normally; the selected
    value is then one of the options, it is "all" or the trimmed category of
    some quote, and it is what is remembered as the last category.  A
    remembered last category is selected again exactly when it is still on
    offer; otherwise the choice falls back to "all". *)
Theorem populateCategories_valid (qs : list Quote) (p : page) :
  Forall (λ q, is_Some (Page.category_label q)) qs →
  ∃ p', Page.populateCategories sort qs p = Some p' ∧
        select_value p' ∈ select_options p' ∧
        lastCategory p' = Some (select_value p') ∧
        (select_value p' = "all"
         ∨ ∃ q, q ∈ qs ∧ Page.category_label q = Some (select_value p')) ∧
        ∀ c, lastCategory p = Some c → c ≠ "" →
             select_value p' = if bool_decide (c ∈ select_options p') then c else "all".
Proof.
  intros Hall.
  destruct (uniqCategories_total qs Hall) as [cats Hcats].
  destruct (Page.populateCategories sort qs p) as [p'|] eqn:E;
    [|by unfold Page.populateCategories in E; rewrite Hcats in E].
  exists p'. split; [done|].
  destruct (populateCategories_value qs p p' E) as (Hin & _ & Hlast & Hval).
  split_and!; try done.
  intros c Hc Hne.
  apply populateCategories_spec in E as (cats' & previous & _ & _ & Hprev & ->).
  rewrite (Hprev c Hc Hne). done.
Qed.

(** X19. Rebuilding the drop-down twice is the same as rebuilding it once:
    [populateCategories] run on the page it has just produced changes
    nothing. *)
Theorem populateCategories_idempotent (qs : list Quote) (p p' : page) :
  Page.populateCategories sort qs p = Some p' →
  Page.populateCategories sort qs p' = Some p'.
Proof.
  intros E. destruct (populateCategories_value qs p p' E) as (Hin & Hne & Hlast & _).
  pose proof E as (cats & previous & Hcats & _ & _ & Hp')%populateCategories_spec.
  assert (select_options p' = "all" :: cats) as Hopts by by rewrite Hp'.
  unfold Page.populateCategories. rewrite Hcats, Hlast. simpl.
  destruct (select_value p') as [|a v] eqn:Ev; [done|].
  rewrite <- Hopts, bool_decide_eq_true_2 by done.
  f_equal. rewrite Hp' in *. simpl in *. by rewrite Ev.
Qed.

Lemma offered_category_has_quotes qs p p' c :
  trimmed_categories qs = true →
  Page.populateCategories sort qs p = Some p' →
  c ∈ select_options p' → c ≠ "all" → Page.pool c qs ≠ [].
Proof.
  intros Htrim (cats & previous & Hcats & _ & _ & ->)%populateCategories_spec Hc Hne.
  simpl in Hc. apply elem_of_cons in Hc as [->|Hc]; [done|].
  apply uniqCategories_spec in Hcats as [_ Hcats].
  apply Hcats in Hc as (Hc & q & Hq & Hlab).
  assert (q ∈ Page.pool c qs) as Hin.
  { apply pool_elem. split; [done|]. right.
    apply (category_label_trimmed q c); try done.
    unfold trimmed_categories in Htrim. rewrite forallb_forall in Htrim.
    apply Htrim. by apply list_elem_of_In. }
  intros E. rewrite E in Hin. by apply elem_of_nil in Hin.
Qed.

Lemma trimmed_categories_labels qs :
  trimmed_categories qs = true → Forall (λ q, is_Some (Page.category_label q)) qs.
Proof.
  unfold trimmed_categories. rewrite forallb_forall. intros H.
  apply Forall_forall. intros q Hq%list_elem_of_In. apply H in Hq.
  apply andb_true_iff in Hq as [Hs _].
  unfold Page.category_label, js_or.
  destruct (category q) as [| | | |s|]; try done. by destruct (truthy (VStr s)); eexists.
Qed.

(** X20. Every category on offer has quotes.  When the categories of the
    collection are trimmed strings, each option of the rebuilt drop-down
    other than "all" selects a non-empty pool. *)
Theorem offered_categories_nonempty (qs : list Quote) (p : page) :
  trimmed_categories qs = true →
  ∃ p', Page.populateCategories sort qs p = Some p' ∧
        ∀ c, c ∈ select_options p' → c ≠ "all" → Page.pool c qs ≠ [].
Proof.
  intros Htrim.
  destruct (uniqCategories_total qs (trimmed_categories_labels qs Htrim)) as [cats Hcats].
  destruct (Page.populateCategories sort qs p) as [p'|] eqn:E;
    [|by unfold Page.populateCategories in E; rewrite Hcats in E].
  exists p'. split; [done|]. intros c. by apply offered_category_has_quotes with p.
Qed.

Lemma showRandomQuote_nonempty session_ok qs p :
  Page.pool (select_value p) qs ≠ [] →
  ∃ q, q ∈ Page.pool (select_value p) qs ∧
       Page.showRandomQuote draw session_ok qs p
       = Some (Page.renderMatchesList qs
                 (Page.setStatus "" "info"
                    ((if session_ok then Page.set_lastQuoteId (to_String (id q)) else λ p, p)
                       (Page.set_display (text q) (category q) p)))).
Proof.
  intros Hne. unfold Page.showRandomQuote.
  destruct (Page.pool (select_value p) qs) as [|q0 l] eqn:E; [done|].
  assert (draw (length (q0 :: l)) < length (q0 :: l)) as Hlt
    by (apply draw_in_range; simpl; lia).
  destruct (lookup_lt_is_Some_2 _ _ Hlt) as [q Hq].
  exists q. split; [by eapply list_elem_of_lookup_2|].
  rewrite Hq. simpl. by destruct session_ok.
Qed.


End page_properties.

Lemma loadInitialData_seed_nonempty now st :
  quotes (loadInitialData (SEED_QUOTES now) st) ≠ [].
Proof. unfold loadInitialData. by destruct (readLocalQuotes st) as [[|q l]|]. Qed.

Section page_resume.

Variable sort : list string → list string.
Variable draw : nat → nat.
Hypothesis sort_permutes : ∀ l, sort l ≡ₚ l.
Hypothesis draw_in_range : ∀ n, 0 < n → draw n < n.

Lemma restore_branch draw' ok' qs p q k :
  lastQuoteId p = Some k → k ≠ "" → NoDup (ids qs) → q ∈ qs → id q = VStr k →
  select_value p = "all" ∨ category q = VStr (select_value p) →
  Page.tryRestoreLastViewedOrRandom draw' ok' qs p
  = Some (Page.renderMatchesList qs (Page.set_display (text q) (category q) p)).
Proof.
  intros Hlast Hk Hnd Hq Hid Hcat. unfold Page.tryRestoreLastViewedOrRandom.
  rewrite Hlast. destruct k as [|a k]; [done|].
  destruct (list_find (λ x, id x = VStr (String a k)) qs) as [[i x]|] eqn:E.
  - apply list_find_Some in E as (Hx%list_elem_of_lookup_2 & Hidx & _).
    assert (x = q) as -> by (apply (unique_record qs); congruence).
    destruct Hcat as [->|Hcat]; [done|].
    by rewrite (bool_decide_eq_true_2 _ Hcat), orb_true_r.
  - apply list_find_None in E. rewrite Forall_forall in E. by destruct (E q Hq).
Qed.

(** X22. Resuming shows the same quote, provided session storage accepted
    the write.  When ids are pairwise distinct non-empty strings and the pool
    is not empty, [showRandomQuote] produces a page; if session storage
    accepted the id, that page is left exactly as it is by
    [tryRestoreLastViewedOrRandom], whatever would be drawn: the remembered
    quote is found and shown again.  If session storage refused the write,
    the remembered id is the one from before, so nothing ties a resume to the
    quote just shown. *)
Theorem resume_shows_same_quote (session_ok : bool) (qs : list Quote) (p : page) :
  NoDup (ids qs) → Forall (λ q, nonblank (id q) = true) qs →
  Page.pool (select_value p) qs ≠ [] →
  ∃ p', Page.showRandomQuote draw session_ok qs p = Some p' ∧
        if session_ok
        then ∀ draw' ok', Page.tryRestoreLastViewedOrRandom draw' ok' qs p' = Some p'
        else lastQuoteId p' = lastQuoteId p.
Proof.
  intros Hnd Hids Hpool.
  destruct (showRandomQuote_nonempty draw draw_in_range session_ok qs p Hpool)
    as (q & Hq & ->).
  eexists. split; [done|]. destruct session_ok; [|done]. intros draw' ok'.
  apply pool_elem in Hq as [Hq Hcat].
  rewrite Forall_forall in Hids. specialize (Hids q Hq).
  destruct (id q) as [| | | |k|] eqn:Ek; try done.
  erewrite (restore_branch draw' ok' qs _ q k); try done.
  simpl in Hids. by apply negb_true_iff, String.eqb_neq in Hids.
Qed.

(** X23. Nothing to resume: when no record of the collection carries the
    remembered id as a string id (nothing remembered, an id that is gone, or
    records whose ids are numbers), [tryRestoreLastViewedOrRandom] does what
    [showRandomQuote] does. *)
Theorem restore_falls_back_to_random (session_ok : bool) (qs : list Quote) (p : page) :
  (∀ k, lastQuoteId p = Some k → VStr k ∉ ids qs) →
  Page.tryRestoreLastViewedOrRandom draw session_ok qs p
  = Page.showRandomQuote draw session_ok qs p.
Proof.
  intros Hno. unfold Page.tryRestoreLastViewedOrRandom.
  destruct (lastQuoteId p) as [[|a k]|]; try done.
  destruct (list_find _ qs) as [[i x]|] eqn:E; [|done].
  apply list_find_Some in E as (Hx%list_elem_of_lookup_2 & Hidx & _).
  destruct (Hno (String a k) eq_refl). rewrite <- Hidx.
  apply list_elem_of_fmap. eauto.
Qed.

(** X24. The first render shows a real quote.  When the categories of the
    loaded collection are trimmed strings, the [DOMContentLoaded] handler
    loads the collection, leaves the drop-down on one of its options, and
    shows a quote of the collection that matches that option, restored or
    drawn. *)
Theorem first_render_shows_quote (session_ok : bool) (now : nat → Z) (st : state)
    (p : page) :
  trimmed_categories (quotes (loadInitialData (SEED_QUOTES now) st)) = true →
  let '(st', shown) :=
    Page.onDOMContentLoaded sort draw session_ok (SEED_QUOTES now) st p in
  st' = loadInitialData (SEED_QUOTES now) st ∧
  ∃ p' q, shown = Some p' ∧ select_value p' ∈ select_options p' ∧
          q ∈ quotes st' ∧
          (select_value p' = "all" ∨ category q = VStr (select_value p')) ∧
          quoteText p' = text q ∧ quoteCategory p' = category q.
Proof.
  intros Htrim. unfold Page.onDOMContentLoaded.
  set (st' := loadInitialData (SEED_QUOTES now) st) in *. split; [done|].
  destruct (uniqCategories_total sort (quotes st')
              (trimmed_categories_labels (quotes st') Htrim)) as [cats Hcats].
  destruct (Page.populateCategories sort (quotes st') p) as [p1|] eqn:E;
    [|by unfold Page.populateCategories in E; rewrite Hcats in E].
  simpl.
  destruct (populateCategories_value sort sort_permutes _ _ _ E) as (Hin & _ & _ & _).
  assert (Page.pool (select_value p1) (quotes st') ≠ []) as Hpool.
  { destruct (decide (select_value p1 = "all")) as [->|Hne].
    - apply loadInitialData_seed_nonempty.
    - by apply (offered_category_has_quotes sort sort_permutes _ p p1). }
  assert (∃ p' q, Page.showRandomQuote draw session_ok (quotes st') p1 = Some p' ∧
            select_value p' ∈ select_options p' ∧ q ∈ quotes st' ∧
            (select_value p' = "all" ∨ category q = VStr (select_value p')) ∧
            quoteText p' = text q ∧ quoteCategory p' = category q) as Hrandom.
  { destruct (showRandomQuote_nonempty draw draw_in_range session_ok _ p1 Hpool)
      as (q & [Hq Hcat]%pool_elem & ->).
    eexists. exists q. split; [done|]. by destruct session_ok. }
  unfold Page.tryRestoreLastViewedOrRandom.
  destruct (lastQuoteId p1) as [[|a k]|]; try done.
  destruct (list_find _ (quotes st')) as [[i x]|] eqn:Ef; [|done].
  apply list_find_Some in Ef as (Hx%list_elem_of_lookup_2 & _ & _).
  destruct (select_value p1 =? "all")%string eqn:Eall; simpl.
  - apply String.eqb_eq in Eall. eexists. exists x. split; [done|].
    simpl. auto.
  - destruct (decide (category x = VStr (select_value p1))) as [Hc|Hc].
    + rewrite bool_decide_eq_true_2 by done. eexists. exists x. split; [done|].
      simpl. auto.
    + by rewrite bool_decide_eq_false_2.
Qed.

End page_resume.

Section category_set.

Variable sort : list string → list string.
Hypothesis sort_permutes : ∀ l, sort l ≡ₚ l.

(** X25. The category set.  When every category is a string or empty,
    [uniqCategories] returns a list without repetition whose members are
    exactly the non-empty trimmed categories of the quotes. *)
Theorem uniqCategories_characterised (qs : list Quote) :
  Forall (λ q, is_Some (Page.category_label q)) qs →
  ∃ cats, Page.uniqCategories sort qs = Some cats ∧ NoDup cats ∧
          ∀ c, c ∈ cats ↔ c ≠ "" ∧ ∃ q, q ∈ qs ∧ Page.category_label q = Some c.
Proof.
  intros Hall. destruct (uniqCategories_total sort qs Hall) as [cats Hcats].
  exists cats. split; [done|]. by apply (uniqCategories_spec sort).
Qed.

End category_set.

(** * The further properties at concrete inputs *)

Lemma sample_sort_permutes l : sample_sort l ≡ₚ l.
Proof. apply merge_sort_Permutation. Qed.

Lemma sample_draw_in_range n : 0 < n → sample_draw n < n.
Proof. intros Hn. unfold sample_draw. apply Nat.div_lt; lia. Qed.

Lemma sync_zero_counts_unchanged_witness :
  (mergeServerQuotes [server_A; server_2] [server_2; server_A]).1.2 = 0 ∧
  (mergeServerQuotes [server_A; server_2] [server_2; server_A]).2 = 0 ∧
  (mergeServerQuotes [server_A; server_2] [server_2; server_A]).1.1
  = [server_A; server_2].
Proof.
  split; [reflexivity|]. split; [reflexivity|].
  exact (sync_zero_counts_unchanged [server_A; server_2] [server_2; server_A]
           eq_refl eq_refl).
Defined.

Lemma import_failure_changes_nothing_witness :
  let file := Some (Parses (JObject local_A)) in
  is_array_file file = false ∧
  quotes (importFromJsonFile file env_a seeded_state) = quotes seeded_state ∧
  localStorage (importFromJsonFile file env_a seeded_state) = localStorage seeded_state.
Proof.
  intros file. split; [reflexivity|].
  destruct (import_failure_changes_nothing file env_a seeded_state eq_refl)
    as (Hq & Hl & _).
  split; [exact Hq|exact Hl].
Defined.

Lemma import_id_dedup_witness :
  let existing := SEED_QUOTES (λ _, 0%Z) in
  let x := mkQuote (VStr "seed-3") (VStr "What we think, we become.") (VStr "mindset")
                   (VStr "seed") (VNum 1) (VNum 0) in
  let q := mkQuote (VStr "seed-3") (VStr "Another text.") (VStr "other")
                   (VStr "import") (VNum 1) (VNum 5) in
  x ∈ existing ∧ id x = id q ∧ importMerge existing [q] = (existing, 0, 1).
Proof.
  intros existing x q.
  assert (x ∈ existing) as Hx by by_computation.
  split; [exact Hx|]. split; [reflexivity|].
  exact (import_id_dedup existing [] q x Hx eq_refl).
Defined.

Lemma import_all_new_witness :
  let existing := SEED_QUOTES (λ _, 0%Z) in
  NoDup (ids (existing ++ [numbered; server_2])) ∧
  NoDup (content <$> (existing ++ [numbered; server_2])) ∧
  importMerge existing [numbered; server_2] = (existing ++ [numbered; server_2], 2, 0).
Proof.
  intros existing.
  assert (NoDup (ids (existing ++ [numbered; server_2]))) as Hids by by_computation.
  assert (NoDup (content <$> (existing ++ [numbered; server_2]))) as Hcont
    by by_computation.
  split; [exact Hids|]. split; [exact Hcont|].
  exact (import_all_new existing [numbered; server_2] Hids Hcont).
Defined.

Lemma sync_agrees_with_server_witness :
  NoDup (ids [local_A]) ∧ consistent [server_B; server_2] = true ∧
  server_B ∈ [server_B; server_2] ∧
  ∃ q, q ∈ (mergeServerQuotes [local_A] [server_B; server_2]).1.1 ∧
       id q = id server_B ∧ text q = text server_B ∧ category q = category server_B.
Proof.
  assert (NoDup (ids [local_A])) as Hnd by by_computation.
  assert (server_B ∈ [server_B; server_2]) as Hin by by_computation.
  split; [exact Hnd|]. split; [reflexivity|]. split; [exact Hin|].
  exact (sync_agrees_with_server [local_A] [server_B; server_2] Hnd eq_refl server_B Hin).
Defined.

Lemma seed_is_not_server :
  ¬ server_id (VStr "seed-1").
Proof. by intros [x [=]]. Qed.

Lemma sync_leaves_local_records_witness :
  let q := mkQuote (VStr "seed-1")
             (VStr "The only way to do great work is to love what you do.")
             (VStr "inspiration") (VStr "seed") (VNum 1) (VNum 1700000000000) in
  quotes seeded_state !! 0 = Some q ∧ ¬ server_id (id q) ∧
  quotes (syncWithServer sample_response 5 "all" 6 seeded_state) !! 0 = Some q.
Proof.
  intros q. split; [reflexivity|]. split; [exact seed_is_not_server|].
  exact (sync_leaves_local_records sample_response 5 "all" 6 seeded_state 0 q
           eq_refl seed_is_not_server).
Defined.

Lemma sync_server_wins_whole_witness :
  NoDup (ids [local_A]) ∧ NoDup (ids [server_2; server_B]) ∧
  [local_A] !! 0 = Some local_A ∧ server_B ∈ [server_2; server_B] ∧
  id local_A = id server_B ∧
  (mergeServerQuotes [local_A] [server_2; server_B]).1.1 !! 0 = Some server_B.
Proof.
  assert (NoDup (ids [local_A])) as Hnd by by_computation.
  assert (NoDup (ids [server_2; server_B])) as Hinc by by_computation.
  assert (server_B ∈ [server_2; server_B]) as Hin by by_computation.
  split; [exact Hnd|]. split; [exact Hinc|]. split; [reflexivity|].
  split; [exact Hin|]. split; [reflexivity|].
  exact (sync_server_wins_whole [local_A] [server_2; server_B] server_B local_A 0
           Hnd Hinc eq_refl Hin eq_refl).
Defined.

Lemma run_well_formed_witness :
  let ops := [OpAdd " Carpe diem " "Latin" tick_a "all";
              OpImport (Some sample_file) env_a;
              OpSync sample_response 5 "all" 6] in
  Forall (λ q, well_formed q = true) (quotes seeded_state) ∧
  Forall (λ q, well_formed q = true) (quotes (run ops seeded_state)).
Proof.
  intros ops.
  assert (Forall (λ q, well_formed q = true) (quotes seeded_state)) as Hwf
    by by_computation.
  split; [exact Hwf|]. exact (run_well_formed ops seeded_state Hwf).
Defined.

Lemma uniqCategories_characterised_witness :
  (∀ l, sample_sort l ≡ₚ l) ∧
  Forall (λ q, is_Some (Page.category_label q)) (quotes seeded_state) ∧
  ∃ cats, Page.uniqCategories sample_sort (quotes seeded_state) = Some cats ∧
          NoDup cats ∧
          ∀ c, c ∈ cats ↔
               c ≠ "" ∧ ∃ q, q ∈ quotes seeded_state ∧ Page.category_label q = Some c.
Proof.
  assert (Forall (λ q, is_Some (Page.category_label q)) (quotes seeded_state)) as Hall
    by by_computation.
  split; [exact sample_sort_permutes|]. split; [exact Hall|].
  exact (uniqCategories_characterised sample_sort sample_sort_permutes
           (quotes seeded_state) Hall).
Defined.

Lemma populateCategories_valid_witness :
  (∀ l, sample_sort l ≡ₚ l) ∧
  Forall (λ q, is_Some (Page.category_label q)) (quotes seeded_state) ∧
  ∃ p', Page.populateCategories sample_sort (quotes seeded_state) returning_page = Some p' ∧
        select_value p' ∈ select_options p' ∧
        lastCategory p' = Some (select_value p') ∧
        (select_value p' = "all"
         ∨ ∃ q, q ∈ quotes seeded_state ∧ Page.category_label q = Some (select_value p')) ∧
        ∀ c, lastCategory returning_page = Some c → c ≠ "" →
             select_value p' = if bool_decide (c ∈ select_options p') then c else "all".
Proof.
  assert (Forall (λ q, is_Some (Page.category_label q)) (quotes seeded_state)) as Hall
    by by_computation.
  split; [exact sample_sort_permutes|]. split; [exact Hall|].
  exact (populateCategories_valid sample_sort sample_sort_permutes
           (quotes seeded_state) returning_page Hall).
Defined.

Lemma populateCategories_idempotent_witness :
  let p' := mkPage "mindset" ["all"; "inspiration"; "mindset"; "productivity"; "programming"]
                   VUndefined VUndefined [] "" "" (Some "mindset") None in
  (∀ l, sample_sort l ≡ₚ l) ∧
  Page.populateCategories sample_sort (quotes seeded_state) returning_page = Some p' ∧
  Page.populateCategories sample_sort (quotes seeded_state) p' = Some p'.
Proof.
  intros p'.
  assert (Page.populateCategories sample_sort (quotes seeded_state) returning_page
          = Some p') as E by (by vm_compute).
  split; [exact sample_sort_permutes|]. split; [exact E|].
  exact (populateCategories_idempotent sample_sort sample_sort_permutes
           (quotes seeded_state) returning_page p' E).
Defined.

Lemma offered_categories_nonempty_witness :
  (∀ l, sample_sort l ≡ₚ l) ∧ trimmed_categories (quotes seeded_state) = true ∧
  ∃ p', Page.populateCategories sample_sort (quotes seeded_state) fresh_page = Some p' ∧
        ∀ c, c ∈ select_options p' → c ≠ "all" → Page.pool c (quotes seeded_state) ≠ [].
Proof.
  split; [exact sample_sort_permutes|]. split; [reflexivity|].
  exact (offered_categories_nonempty sample_sort sample_sort_permutes
           (quotes seeded_state) fresh_page eq_refl).
Defined.

(** When a stored category is not trimmed the same does not hold: the
    option "x" is on offer and selects nothing. *)
Example untrimmed_category_offered_without_quotes :
  let qs := [mkQuote (VStr "a") (VStr "t") (VStr " x ") VUndefined VUndefined VUndefined] in
  (select_options <$> Page.populateCategories sample_sort qs fresh_page)
  = Some ["all"; "x"] ∧ Page.pool "x" qs = [].
Proof. by vm_compute. Qed.


Lemma resume_shows_same_quote_witness :
  let p := mkPage "all" ["all"] VUndefined VUndefined [] "" "" None None in
  (∀ n, 0 < n → sample_draw n < n) ∧
  NoDup (ids (quotes seeded_state)) ∧
  Forall (λ q, nonblank (id q) = true) (quotes seeded_state) ∧
  Page.pool (select_value p) (quotes seeded_state) ≠ [] ∧
  ∃ p', Page.showRandomQuote sample_draw true (quotes seeded_state) p = Some p' ∧
        ∀ draw' ok',
          Page.tryRestoreLastViewedOrRandom draw' ok' (quotes seeded_state) p' = Some p'.
Proof.
  intros p.
  assert (NoDup (ids (quotes seeded_state))) as Hnd by by_computation.
  assert (Forall (λ q, nonblank (id q) = true) (quotes seeded_state)) as Hids
    by by_computation.
  assert (Page.pool (select_value p) (quotes seeded_state) ≠ []) as Hpool by done.
  split; [exact sample_draw_in_range|]. split; [exact Hnd|]. split; [exact Hids|].
  split; [exact Hpool|].
  exact (resume_shows_same_quote sample_draw sample_draw_in_range true
           (quotes seeded_state) p Hnd Hids Hpool).
Defined.

(** A record whose id is the number 7 is remembered as "7" and is not found
    again. *)
Lemma restore_falls_back_to_random_witness :
  let p := mkPage "all" ["all"] VUndefined VUndefined [] "" "" None (Some "7") in
  (∀ k, lastQuoteId p = Some k → VStr k ∉ ids [numbered]) ∧
  Page.tryRestoreLastViewedOrRandom sample_draw true [numbered] p
  = Page.showRandomQuote sample_draw true [numbered] p.
Proof.
  intros p.
  assert (∀ k, lastQuoteId p = Some k → VStr k ∉ ids [numbered]) as Hno.
  { intros k [= <-]. by_computation. }
  split; [exact Hno|].
  exact (restore_falls_back_to_random sample_draw true [numbered] p Hno).
Defined.

Lemma first_render_shows_quote_witness :
  (∀ l, sample_sort l ≡ₚ l) ∧ (∀ n, 0 < n → sample_draw n < n) ∧
  trimmed_categories
    (quotes (loadInitialData (SEED_QUOTES (λ _, 0%Z)) blank_state)) = true ∧
  ∃ p' q,
    (Page.onDOMContentLoaded sample_sort sample_draw true (SEED_QUOTES (λ _, 0%Z))
       blank_state returning_page).2 = Some p' ∧
    select_value p' ∈ select_options p' ∧
    q ∈ quotes (loadInitialData (SEED_QUOTES (λ _, 0%Z)) blank_state) ∧
    (select_value p' = "all" ∨ category q = VStr (select_value p')) ∧
    quoteText p' = text q ∧ quoteCategory p' = category q.
Proof.
  split; [exact sample_sort_permutes|]. split; [exact sample_draw_in_range|].
  split; [reflexivity|].
  exact (proj2 (first_render_shows_quote sample_sort sample_draw sample_sort_permutes
                  sample_draw_in_range true (λ _, 0%Z) blank_state returning_page
                  eq_refl)).
Defined.
